(** * Exercise recognizer: the inference script [src/inference.py]

    A shallow embedding of the script's own functions
    ([get_test_transform], [denormalize], [annotate_image], [inference] and
    the driver under [__main__]) together with the library operations they
    call, and the properties its specification states about them.

    Tensors are dtype-generic in the framework, so the tensor code is written
    once over a [Scalar] interface and read at two instances:
    - [B32.t], IEEE-754 binary32 as specified by [SpecFloat], the dtype the
      script runs with (every definition computes there);
    - [R], the real numbers, for statements about the exact arithmetic that
      the floating-point operations approximate. *)

From Stdlib Require Import String Ascii Strings.Byte.
From Stdlib Require Import List ZArith Bool Arith Lia.
From Stdlib Require Import Reals Lra.
From Stdlib Require Import Floats.SpecFloat.
Import ListNotations.

Set Implicit Arguments.
Set Warnings "-register-all".

(** ** Exceptions and results *)

(** The Python exceptions that the modelled code can raise. *)
Inductive exn : Type :=
| TypeError      (* iteration over a 0-d tensor *)
| IndexError     (* list index out of range *)
| ValueError     (* argmax of an empty array, Normalize on < 3 dims *)
| RuntimeError   (* tensor shape mismatch *)
| CvError.       (* an OpenCV assertion *)

Inductive res (A : Type) : Type :=
| Ok (a : A)
| Raise (e : exn).
Arguments Ok {A} a.
Arguments Raise {A} e.

Definition rbind {A B} (r : res A) (k : A -> res B) : res B :=
  match r with
  | Ok a => k a
  | Raise e => Raise e
  end.

Declare Scope res_scope.
Delimit Scope res_scope with res.
Notation "x <- r ;; k" := (rbind r (fun x => k))
  (at level 61, r at next level, right associativity) : res_scope.
Local Open Scope res_scope.

(** ** Scalars *)

(** What the tensor code needs from its element type.  [lit n d] is the value
    of the Python literal [n/d] converted to the element type; [finite] is
    [isfinite]; [ltb] and [leb] are the IEEE comparisons (false on NaN). *)
Class Scalar (F : Type) : Type := {
  lit : Z -> positive -> F;
  add : F -> F -> F;
  sub : F -> F -> F;
  mul : F -> F -> F;
  div : F -> F -> F;
  ltb : F -> F -> bool;
  leb : F -> F -> bool;
  finite : F -> bool
}.

(** Element types with an exponential function, for [softmax]. *)
Class Exponential (F : Type) : Type := { expF : F -> F }.

Definition of_byte {F} `{Scalar F} (b : byte) : F :=
  lit (Z.of_N (Byte.to_N b)) 1.

(** *** binary32 *)

Module B32.

Definition prec : Z := 24.
Definition emax : Z := 128.

Definition t : Type := spec_float.

(** A Python [float] is binary64; a literal reaches a float32 tensor by
    rounding the decimal to binary64 and then to binary32. *)
Definition b64_of_Z (z : Z) : spec_float := binary_normalize 53 1024 z 0 false.

Definition of_b64 (x : spec_float) : t :=
  match x with
  | S754_finite s m e => binary_normalize prec emax (cond_Zopp s (Zpos m)) e s
  | _ => x
  end.

Definition of_lit (n : Z) (d : positive) : t :=
  of_b64 (SFdiv 53 1024 (b64_of_Z n) (b64_of_Z (Zpos d))).

Definition is_finite (x : t) : bool :=
  match x with
  | S754_zero _ | S754_finite _ _ _ => true
  | S754_infinity _ | S754_nan => false
  end.

Definition is_nan (x : t) : bool :=
  match x with
  | S754_nan => true
  | _ => false
  end.

(** The float32 exponential.  The library's routine is not part of the
    sources; it is modelled by the correctly rounded exponential, computed
    in fixed point with [fbits] fractional bits: [x = n ln 2 + r] with
    [|r| <= ln 2 / 2], [e^r] by its Taylor series, and the result
    [e^r 2^n] rounded to nearest even.  (Vectorised library routines may
    differ from it in the last bit.) *)
Definition fbits : Z := 128.

(** [ln 2 = sum_k 1 / (k 2^k)], in units of [2^-fbits]. *)
Fixpoint ln2_series (k : nat) (n : Z) : Z :=
  match k with
  | O => 0
  | S k' => (Z.shiftl 1 fbits / (n * Z.shiftl 1 n) + ln2_series k' (n + 1))%Z
  end.

Definition LN2 : Z := Eval vm_compute in ln2_series 140 1.

(** [sum_k r^k / k!], in units of [2^-fbits]; [term] is the current term. *)
Fixpoint exp_series (k : nat) (n : Z) (term r : Z) : Z :=
  match k with
  | O => 0
  | S k' =>
      (term + exp_series k' (n + 1) (term * r / (n * Z.shiftl 1 fbits)) r)%Z
  end.

Definition exp (x : t) : t :=
  match x with
  | S754_nan => S754_nan
  | S754_infinity false => x
  | S754_infinity true => S754_zero false
  | S754_zero _ => binary_normalize prec emax 1 0 false
  | S754_finite s m e =>
      if (8 <=? Z.pos (digits2_pos m) + e)%Z
      then (if s then S754_zero false else S754_infinity false)
      else
        let X := cond_Zopp s (Z.shiftl (Z.pos m) (e + fbits)) in
        let n := ((2 * X + LN2) / (2 * LN2))%Z in
        let r := (X - n * LN2)%Z in
        binary_normalize prec emax (exp_series 40 1 (Z.shiftl 1 fbits) r)
                         (n - fbits) false
  end.

End B32.

#[export] Instance b32_scalar : Scalar B32.t := {
  lit := B32.of_lit;
  add := SFadd B32.prec B32.emax;
  sub := SFsub B32.prec B32.emax;
  mul := SFmul B32.prec B32.emax;
  div := SFdiv B32.prec B32.emax;
  ltb := SFltb;
  leb := SFleb;
  finite := B32.is_finite
}.

(** *** Real numbers *)

#[export] Instance R_scalar : Scalar R := {
  lit := fun n d => (IZR n / IZR (Zpos d))%R;
  add := Rplus;
  sub := Rminus;
  mul := Rmult;
  div := Rdiv;
  ltb := fun x y => if Rlt_dec x y then true else false;
  leb := fun x y => if Rle_dec x y then true else false;
  finite := fun _ => true
}.

#[export] Instance b32_exponential : Exponential B32.t := { expF := B32.exp }.

#[export] Instance R_exponential : Exponential R := { expF := exp }.

(** ** Tensors *)

(** An n-dimensional array as nested sequences: [T0 v] is a 0-d tensor,
    [TN ts] stacks the sub-tensors [ts] along a new leading axis.  Iterating
    over a tensor (as [zip] does) walks the children of [TN]. *)
Inductive tensor (F : Type) : Type :=
| T0 (v : F)
| TN (ts : list (tensor F)).
Arguments T0 {F} v.
Arguments TN {F} ts.

Section Tensor.
Context {F : Type}.

Fixpoint tmap {G} (f : F -> G) (x : tensor F) : tensor G :=
  match x with
  | T0 v => T0 (f v)
  | TN ts => TN (map (tmap f) ts)
  end.

(** The shape, read along the first child of every axis. *)
Fixpoint shape (x : tensor F) : list nat :=
  match x with
  | T0 _ => []
  | TN ts => length ts :: match ts with
                          | [] => []
                          | t :: _ => shape t
                          end
  end.

Definition ndim (x : tensor F) : nat := length (shape x).

(** [has_shape s x]: [x] is rectangular with extents [s]. *)
Fixpoint has_shape (s : list nat) (x : tensor F) : bool :=
  match s, x with
  | [], T0 _ => true
  | n :: s', TN ts => (length ts =? n) && forallb (has_shape s') ts
  | _, _ => false
  end.

(** [x[i]], with [d] standing in where [i] is out of range. *)
Definition tnth (d : F) (x : tensor F) (i : nat) : tensor F :=
  match x with
  | T0 _ => T0 d
  | TN ts => nth i ts (T0 d)
  end.

Definition tval (d : F) (x : tensor F) : F :=
  match x with
  | T0 v => v
  | TN _ => d
  end.

Definition get3 (d : F) (x : tensor F) (i j k : nat) : F :=
  tval d (tnth d (tnth d (tnth d x i) j) k).

(** A 3-d tensor given by its entries. *)
Definition build3 (a b c : nat) (f : nat -> nat -> nat -> F) : tensor F :=
  TN (map (fun i =>
    TN (map (fun j =>
      TN (map (fun k => T0 (f i j k)) (seq 0 c))) (seq 0 b))) (seq 0 a)).

(** [Tensor.squeeze(0)]: drops the leading axis when its extent is 1. *)
Definition squeeze0 (x : tensor F) : tensor F :=
  match x with
  | TN [t] => t
  | _ => x
  end.

(** [torch.unsqueeze(x, 0)]. *)
Definition unsqueeze0 (x : tensor F) : tensor F := TN [x].

(** [Tensor.permute(p)] on a 3-d tensor, for the two orders used:
    (1, 2, 0) takes C x H x W to H x W x C, (2, 0, 1) goes back. *)
Definition permute120 (d : F) (x : tensor F) : res (tensor F) :=
  match shape x with
  | [c; h; w] => Ok (build3 h w c (fun i j k => get3 d x k i j))
  | _ => Raise RuntimeError
  end.

Definition permute201 (d : F) (x : tensor F) : res (tensor F) :=
  match shape x with
  | [h; w; c] => Ok (build3 c h w (fun k i j => get3 d x i j k))
  | _ => Raise RuntimeError
  end.

End Tensor.

(** Induction over a tensor and, with it, over all its sub-tensors. *)
Fixpoint tensor_induction {F : Type} (P : tensor F -> Prop)
    (leaf : forall v, P (T0 v))
    (node : forall ts, Forall P ts -> P (TN ts))
    (x : tensor F) : P x :=
  match x with
  | T0 v => leaf v
  | TN ts =>
      node ts ((fix all (l : list (tensor F)) : Forall P l :=
                  match l with
                  | [] => Forall_nil P
                  | t :: l' =>
                      Forall_cons t (tensor_induction leaf node t) (all l')
                  end) ts)
  end.

(** ** The script: normalization constants and [denormalize] *)

Section Denormalize.
Context {F : Type} `{Scalar F}.

Definition zero : F := lit 0 1.
Definition one : F := lit 1 1.

(** [mean=[0.485, 0.456, 0.406]], [std=[0.229, 0.224, 0.225]]. *)
Definition MEAN : list F := [lit 485 1000; lit 456 1000; lit 406 1000].
Definition STD : list F := [lit 229 1000; lit 224 1000; lit 225 1000].

(** [torch.clamp(x, lo, hi)] on one element; NaN passes through. *)
Definition clamp1 (lo hi v : F) : F :=
  if ltb v lo then lo else if ltb hi v then hi else v.

Definition clamp (lo hi : F) (x : tensor F) : tensor F := tmap (clamp1 lo hi) x.

(** The loop [for t, m, s in zip(x, mean, std): t.mul_(s).add_(m)]: [zip]
    pairs the children of [x] along its FIRST axis with the constants and
    stops at the shortest; children beyond that are left as they are. *)
Fixpoint zip_mul_add (ts : list (tensor F)) (mean std : list F)
  : list (tensor F) :=
  match ts, mean, std with
  | t :: ts', m :: mean', s :: std' =>
      tmap (fun v => add (mul v s) m) t :: zip_mul_add ts' mean' std'
  | _, _, _ => ts
  end.

(** The tensor [x] after the in-place loop. *)
Definition denormalize_inplace (x : tensor F) (mean std : list F)
  : res (tensor F) :=
  match x with
  | T0 _ => Raise TypeError
  | TN ts => Ok (TN (zip_mul_add ts mean std))
  end.

(** [denormalize(x, mean, std)]: the loop, then [torch.clamp(x, 0, 1)],
    which allocates the returned tensor. *)
Definition denormalize (x : tensor F) (mean std : list F) : res (tensor F) :=
  x' <- denormalize_inplace x mean std ;;
  Ok (clamp zero one x').

End Denormalize.

(** ** Image operations of the libraries the script calls *)

(** An 8-bit image is a tensor of bytes in height x width x channel layout
    (a NumPy [uint8] array, or a PIL image in mode RGB). *)
Definition image8 : Type := tensor byte.

Section Pixels.
Context {A : Type}.

(** Applies [f] to every pixel (every child of every row). *)
Definition map_pixels (f : tensor A -> tensor A) (img : tensor A) : tensor A :=
  match img with
  | T0 _ => img
  | TN rows =>
      TN (map (fun row => match row with
                          | T0 _ => row
                          | TN pxs => TN (map f pxs)
                          end) rows)
  end.

(** The same, with the pixel's row and column passed to [f]. *)
Definition mapi_pixels (f : nat -> nat -> tensor A -> tensor A)
    (img : tensor A) : tensor A :=
  match img with
  | T0 _ => img
  | TN rows =>
      TN (map (fun yr => match snd yr with
                         | T0 _ => snd yr
                         | TN pxs =>
                             TN (map (fun xp => f (fst yr) (fst xp) (snd xp))
                                     (combine (seq 0 (length pxs)) pxs))
                         end)
              (combine (seq 0 (length rows)) rows))
  end.

Definition swap_rb (px : tensor A) : tensor A :=
  match px with
  | TN (c0 :: c1 :: c2 :: _) => TN [c2; c1; c0]
  | _ => px
  end.

(** [cv2.cvtColor] with [COLOR_RGB2BGR] or [COLOR_BGR2RGB] (one and the same
    conversion): a non-empty 3- or 4-channel image; the result has three
    channels, the first and third exchanged. *)
Definition cvtColor_swap (img : tensor A) : res (tensor A) :=
  match shape img with
  | [h; w; c] =>
      if (0 <? h) && (0 <? w) && ((c =? 3) || (c =? 4))
      then Ok (map_pixels swap_rb img)
      else Raise CvError
  | _ => Raise CvError
  end.

Definition rows_of (img : tensor A) : list (tensor A) :=
  match img with
  | T0 _ => []
  | TN rows => rows
  end.

(** [img[top : top + h, left : left + w]]. *)
Definition crop (img : tensor A) (top left h w : nat) : tensor A :=
  TN (map (fun row => TN (firstn w (skipn left (rows_of row))))
          (firstn h (skipn top (rows_of img)))).

(** Pads with the pixel [fill] on the four sides. *)
Definition pad (fill : tensor A) (l t r b : nat) (img : tensor A) : tensor A :=
  let w := nth 1 (shape img) 0 in
  let blank := TN (repeat fill (l + w + r)) in
  TN (repeat blank t
      ++ map (fun row => TN (repeat fill l ++ rows_of row ++ repeat fill r))
             (rows_of img)
      ++ repeat blank b).

End Pixels.

(** [int(round(d / 2.0))] for [d >= 0]: Python rounds halves to even. *)
Definition round_half (d : nat) : nat :=
  let q := d / 2 in
  if Nat.even d then q else if Nat.even q then q else S q.

(** [torchvision.transforms.functional.center_crop(img, size)]: an image
    smaller than the output is first padded with black. *)
Definition center_crop (size : nat) (img : image8) : image8 :=
  let h := nth 0 (shape img) 0 in
  let w := nth 1 (shape img) 0 in
  let c := nth 2 (shape img) 0 in
  let small := (w <? size) || (h <? size) in
  let img1 :=
    if small
    then pad (TN (repeat (T0 x00) c))
             ((size - w) / 2) ((size - h) / 2)
             ((size - w + 1) / 2) ((size - h + 1) / 2) img
    else img in
  let h1 := nth 0 (shape img1) 0 in
  let w1 := nth 1 (shape img1) 0 in
  if small && (size =? w1) && (size =? h1) then img1
  else crop img1 (round_half (h1 - size)) (round_half (w1 - size)) size size.

(** [transforms.ToPILImage()] on the array read by OpenCV: three channels
    give mode RGB.  (Arrays with another channel count give other modes,
    which [Normalize] with three constants rejects further down; they are
    rejected here.) *)
Definition to_pil_image (img : image8) : res image8 :=
  match shape img with
  | [h; w; 3] => if (0 <? h) && (0 <? w) then Ok img else Raise ValueError
  | _ => Raise ValueError
  end.

Section Transform.
Context {F : Type} `{Scalar F}.

(** [transforms.ToTensor()]: channel-first layout, values divided by 255. *)
Definition to_tensor (img : image8) : res (tensor F) :=
  chw <- permute201 x00 img ;;
  Ok (tmap (fun b => div (of_byte b) (lit 255 1)) chw).

(** [tensor.sub_(mean).div_(std)] with [mean] and [std] viewed as C x 1 x 1:
    the channel counts have to agree. *)
Fixpoint zip_sub_div (ts : list (tensor F)) (mean std : list F)
  : res (list (tensor F)) :=
  match ts, mean, std with
  | [], [], [] => Ok []
  | t :: ts', m :: mean', s :: std' =>
      rest <- zip_sub_div ts' mean' std' ;;
      Ok (tmap (fun v => div (sub v m) s) t :: rest)
  | _, _, _ => Raise RuntimeError
  end.

Fixpoint map_res {A B} (f : A -> res B) (l : list A) : res (list B) :=
  match l with
  | [] => Ok []
  | a :: l' => b <- f a ;; bs <- map_res f l' ;; Ok (b :: bs)
  end.

(** The channel axis is the third from the last: [k] leading axes are
    mapped over. *)
Fixpoint normalize_at (k : nat) (mean std : list F) (x : tensor F)
  : res (tensor F) :=
  match x with
  | T0 _ => Raise RuntimeError
  | TN ts =>
      match k with
      | 0 => r <- zip_sub_div ts mean std ;; Ok (TN r)
      | S k' => r <- map_res (normalize_at k' mean std) ts ;; Ok (TN r)
      end
  end.

(** [transforms.Normalize(mean, std)]. *)
Definition normalize (mean std : list F) (x : tensor F) : res (tensor F) :=
  if ndim x <? 3 then Raise ValueError
  else if existsb (fun s => leb s zero && leb zero s) std then Raise ValueError
  else normalize_at (ndim x - 3) mean std x.

(** PIL's resampling to a given height and width; its interpolation is the
    library's, only its contract is used. *)
Variable resize : nat -> nat -> image8 -> image8.

(** [get_test_transform(image_size)], applied to an image. *)
Definition get_test_transform (image_size : nat) (img : image8)
  : res (tensor F) :=
  pil <- to_pil_image img ;;
  let resized := resize image_size image_size pil in
  let cropped := center_crop 224 resized in
  t <- to_tensor cropped ;;
  normalize MEAN STD t.

End Transform.

(** [IMAGE_RESIZE = 256]. *)
Definition IMAGE_RESIZE : nat := 256.

(** ** The script: [annotate_image] *)

(** [l[i]] for a Python list: an index in [-len(l), 0) counts from the end. *)
Definition py_index {A} (l : list A) (i : Z) : res A :=
  let n := Z.of_nat (length l) in
  let j := (if i <? 0 then i + n else i)%Z in
  if ((0 <=? j) && (j <? n))%Z
  then match nth_error l (Z.to_nat j) with
       | Some a => Ok a
       | None => Raise IndexError
       end
  else Raise IndexError.

Section Annotate.
Context {F : Type} `{Scalar F}.

(** [from class_names import class_names as CLASS_NAMES]: the table is not
    part of the sources at hand; any list of names. *)
Variable CLASS_NAMES : list string.

(** OpenCV's text rasterizer for the fixed font, scale 0.7 and thickness 2
    of the call: [glyphs text (ox, oy) y x] tells whether drawing [text]
    with its bottom-left corner at column [ox], row [oy] covers the pixel
    in row [y], column [x]. *)
Variable glyphs : string -> nat * nat -> nat -> nat -> bool.

(** [cv2.putText(img, text, org, font, scale, color, thickness)]: every
    covered pixel inside the image receives the first channels of [color],
    converted to the image's element type. *)
Definition putText (img : tensor F) (text : string) (org : nat * nat)
    (color : list F) : tensor F :=
  mapi_pixels
    (fun y x px =>
       if glyphs text org y x
       then TN (map T0 (firstn (length (rows_of px)) color))
       else px)
    img.

(** The colour [(0, 0, 255)] of the call. *)
Definition TEXT_COLOR : list F := [lit 0 1; lit 0 1; lit 255 1].

Definition annotate_image (image : tensor F) (output_class : Z)
  : res (tensor F) :=
  image <- denormalize image MEAN STD ;;
  image <- permute120 zero (squeeze0 image) ;;
  image <- cvtColor_swap image ;;
  class_name <- py_index CLASS_NAMES output_class ;;
  Ok (putText image class_name (5, 25) TEXT_COLOR).

End Annotate.

(** ** The script: [inference] *)

(** [DEVICE]: chosen once when the script starts. *)
Inductive device : Type := Cpu | Cuda0.

Section Inference.
Context {F : Type} `{Scalar F} `{Exponential F}.

(** A NaN is the one value that is not below or equal to itself. *)
Definition is_nan_value (x : F) : bool := negb (leb x x).

(** The larger of two values; a NaN wins, as in the framework's maximum. *)
Definition max2 (a b : F) : F :=
  if is_nan_value a then a
  else if is_nan_value b then b
  else if leb b a then a else b.

(** The largest score of a row; an empty row has no entry to use it. *)
Definition row_max (xs : list F) : F :=
  match xs with
  | [] => zero
  | x :: xs' => fold_left max2 xs' x
  end.

(** [F.softmax] over one row of scores, the way the framework evaluates it:
    the largest score [m] of the row is subtracted first, and the entry for
    the score [x] is [exp(x - m) / sum_j exp(x_j - m)].  (The kernels differ
    in the order of the summation, and the one for the CPU multiplies by the
    rounded reciprocal of the sum; the last bit of an entry is theirs.) *)
Definition softmax_value (xs : list F) (x : F) : F :=
  div (expF (sub x (row_max xs)))
      (fold_right add zero (map (fun y => expF (sub y (row_max xs))) xs)).

Definition softmax_row (xs : list F) : list F := map (softmax_value xs) xs.

(** [F.softmax(outputs, dim=1)] on a batch x class array. *)
Definition softmax_dim1 (outputs : list (list F)) : list (list F) :=
  map softmax_row outputs.

(** [np.argmax] keeps the first largest entry; an entry that is not below
    or equal to the best one replaces it, and a NaN ends the scan. *)
Fixpoint argmax_from (best : F) (besti i : nat) (l : list F) : nat :=
  match l with
  | [] => besti
  | x :: l' =>
      if leb x best then argmax_from best besti (S i) l'
      else if is_nan_value x then i
      else argmax_from x i (S i) l'
  end.

Definition argmax_list (l : list F) : res nat :=
  match l with
  | [] => Raise ValueError
  | x :: l' => Ok (if is_nan_value x then 0 else argmax_from x 0 1 l')
  end.

(** [np.argmax(a)] without an axis: the index into the flattened array. *)
Definition np_argmax (a : list (list F)) : res nat := argmax_list (concat a).

(** The network: its parameters and the train/eval flag of the module. *)
Variable W : Type.
Record net : Type := { weights : W; training : bool }.

(** State of the framework's random generators, read by layers that are
    active in training mode only. *)
Variable G : Type.

(** The forward pass of the network built by [build_model], which is not
    part of the sources at hand: batch x class scores. *)
Variable forward : device -> W -> bool -> G -> tensor F -> res (list (list F)).

Variable CLASS_NAMES : list string.
Variable glyphs : string -> nat * nat -> nat -> nat -> bool.

(** [model.eval()]. *)
Definition eval (model : net) : net :=
  {| weights := weights model; training := false |}.

(** Lines 84 to 96 of [inference]: the predicted class number, and the
    module as the call leaves it. *)
Definition predict (model : net) (testloader : tensor F) (DEVICE : device)
    (g : G) : net * res nat :=
  let model := eval model in
  let image := testloader in
  (model,
   outputs <- forward DEVICE (weights model) (training model) g image ;;
   let predictions := softmax_dim1 outputs in
   np_argmax predictions).

(** [inference(model, testloader, DEVICE)]. *)
Definition inference (model : net) (testloader : tensor F) (DEVICE : device)
    (g : G) : net * res (tensor F) :=
  let '(model, r) := predict model testloader DEVICE g in
  (model,
   output_class <- r ;;
   annotate_image CLASS_NAMES glyphs testloader (Z.of_nat output_class)).

End Inference.

(** ** The script: the driver under [__main__] *)

(** What a run does to the outside, in order. *)
Inductive event (F : Type) : Type :=
| Makedirs (path : string)                 (* os.makedirs(path, exist_ok=True) *)
| Print (i : nat)                          (* "Inference on image: i" *)
| Inference (image_path : string)          (* a call of [inference] *)
| Imshow (img : tensor F)                  (* cv2.imshow and cv2.waitKey(1) *)
| Imwrite (path : string) (img : tensor F). (* cv2.imwrite(path, img) *)
Arguments Makedirs {F} path.
Arguments Print {F} i.
Arguments Inference {F} image_path.

(** Computations of the driver: they append to the trace of events and may
    stop with an exception, the trace so far being kept. *)
Definition io (F A : Type) : Type := list (event F) -> list (event F) * res A.

Definition io_ret {F A} (a : A) : io F A := fun tr => (tr, Ok a).

Definition io_bind {F A B} (c : io F A) (k : A -> io F B) : io F B :=
  fun tr =>
    match c tr with
    | (tr', Ok a) => k a tr'
    | (tr', Raise e) => (tr', Raise e)
    end.

Definition emit {F} (e : event F) : io F unit := fun tr => (tr ++ [e], Ok tt).

Definition lift {F A} (r : res A) : io F A := fun tr => (tr, r).

Declare Scope io_scope.
Delimit Scope io_scope with io.
Notation "x <- c ;; k" := (io_bind c (fun x => k))
  (at level 61, c at next level, right associativity) : io_scope.
Notation "c ;;; k" := (io_bind c (fun _ => k))
  (at level 61, right associativity) : io_scope.

(** Paths. *)
Definition ends_with (suffix s : string) : bool :=
  let n := String.length s in
  let k := String.length suffix in
  (k <=? n) && String.eqb (substring (n - k) k s) suffix.

(** [fnmatch] of a directory entry against ['*.jpg']: the name ends in
    [.jpg]; [glob] leaves out the names that start with a dot. *)
Definition matches_jpg (name : string) : bool :=
  ends_with ".jpg" name && negb (String.prefix "." name).

(** [os.path.join(a, b)] for a relative [b]. *)
Definition path_join (a b : string) : string :=
  if (String.eqb a "" || ends_with "/" a)%bool then a ++ b else a ++ "/" ++ b.

(** [path.split(os.path.sep)[-1]]: what follows the last separator. *)
Fixpoint last_component_from (acc s : string) : string :=
  match s with
  | EmptyString => acc
  | String c s' =>
      if Ascii.eqb c "/" then last_component_from "" s'
      else last_component_from (acc ++ String c "") s'
  end.

Definition last_component (path : string) : string :=
  last_component_from "" path.

Definition INFER_RESULT_PATH : string :=
  path_join (path_join (path_join ".." "outputs") "inference_results")
            "image_outputs".

(** The command line: [--weights] and [--input]. *)
Record args : Type := { weights_path : string; input : string }.

Section Driver.
Context {F : Type} `{Scalar F} `{Exponential F}.

Variable W : Type.
Variable G : Type.
Variable forward : device -> W -> bool -> G -> tensor F -> res (list (list F)).
Variable CLASS_NAMES : list string.
Variable glyphs : string -> nat * nat -> nat -> nat -> bool.
Variable resize : nat -> nat -> image8 -> image8.

(** The surroundings of a run. *)
Variable checkpoint : Type.
Variable torch_load : string -> res checkpoint.
  (* [torch.load(weights_path, map_location=DEVICE)] *)
Variable model_state_dict : checkpoint -> res W.
  (* [checkpoint['model_state_dict']] *)
Variable build_model : bool -> nat -> net W.
  (* [build_model(fine_tune, num_classes)] *)
Variable load_state_dict : net W -> W -> res (net W).
Variable listdir : string -> list string.
  (* the entries of a directory in the system's order; none if there is
     no such directory *)
Variable imread : string -> option image8.
  (* [cv2.imread]: [None] for a file that cannot be decoded *)

(** [glob.glob(os.path.join(dir, '*.jpg'))]. *)
Definition glob_jpg (dir : string) : list string :=
  map (path_join dir) (filter matches_jpg (listdir dir)).

(** One turn of the [for] loop. *)
Definition loop_body (DEVICE : device) (g : G) (model : net W)
    (i : nat) (image_path : string) : io F (net W) :=
  (emit (Print (i + 1)) ;;;
   image <- lift (match imread image_path with
                  | Some image => cvtColor_swap image
                  | None => Raise CvError
                  end) ;;
   image <- lift (get_test_transform resize IMAGE_RESIZE image) ;;
   let image := unsqueeze0 image in
   emit (Inference image_path) ;;;
   let '(model, r) :=
     inference forward CLASS_NAMES glyphs model image DEVICE g in
   result <- lift r ;;
   let image_name := last_component image_path in
   emit (Imshow result) ;;;
   emit (Imwrite (path_join INFER_RESULT_PATH image_name)
                 (tmap (fun v => mul v (lit 255 1)) result)) ;;;
   io_ret model)%io.

(** The [for] loop over [enumerate(all_image_paths)]; [gs i] is the state of
    the generators when picture [i] is processed. *)
Fixpoint loop (DEVICE : device) (gs : nat -> G) (model : net W) (i : nat)
    (paths : list string) : io F unit :=
  match paths with
  | [] => io_ret tt
  | image_path :: rest =>
      (model <- loop_body DEVICE (gs i) model i image_path ;;
       loop DEVICE gs model (S i) rest)%io
  end.

(** The body of [if __name__ == '__main__']. *)
Definition main (a : args) (DEVICE : device) (gs : nat -> G) : io F unit :=
  (emit (Makedirs INFER_RESULT_PATH) ;;;
   checkpoint <- lift (torch_load (weights_path a)) ;;
   let model := build_model false (length CLASS_NAMES) in
   state <- lift (model_state_dict checkpoint) ;;
   model <- lift (load_state_dict model state) ;;
   let all_image_paths := glob_jpg (input a) in
   loop DEVICE gs model 0 all_image_paths)%io.

(** A run starts with nothing done yet. *)
Definition run (a : args) (DEVICE : device) (gs : nat -> G)
  : list (event F) * res unit :=
  main a DEVICE gs [].

Definition is_inference (e : event F) : bool :=
  match e with Inference _ => true | _ => false end.

Definition is_imwrite (e : event F) : bool :=
  match e with Imwrite _ _ => true | _ => false end.

End Driver.

(** ** The specification's reading of the denormalization step *)

Section DenormalizeSpec.
Context {F : Type} `{Scalar F}.

(** In the specification's words, for a batch of channel-first images:
    channel [c] of each image becomes [value * std[c] + mean[c]], and every
    value is then clamped into [0, 1]. *)
Definition denormalize_per_channel (x : tensor F) (mean std : list F)
  : res (tensor F) :=
  match x with
  | T0 _ => Raise TypeError
  | TN images =>
      images' <- map_res (fun image => denormalize_inplace image mean std)
                         images ;;
      Ok (clamp zero one (TN images'))
  end.

(** [v] lies in the closed interval [0, 1]. *)
Definition in_unit (v : F) : bool := leb zero v && leb v one.

(** Every entry of [x] satisfies [p]. *)
Fixpoint tall (p : F -> bool) (x : tensor F) : bool :=
  match x with
  | T0 v => p v
  | TN ts => forallb (tall p) ts
  end.

(** What the loop of [denormalize] does to a value of the first child of
    its argument when called with its default constants. *)
Definition scale0 (v : F) : F := add (mul v (lit 229 1000)) (lit 485 1000).

(** The pixels that [annotate_image] hands to [putText] for a batch of one
    3 x h x w image: rescaled with the constants of the first child,
    clamped, in BGR order. *)
Definition bgr_pixels (h w : nat) (img : tensor F) : tensor F :=
  build3 h w 3
    (fun i j k =>
       get3 zero (tmap (clamp1 zero one) (tmap scale0 img)) (2 - k) i j).

(** The value that [ToTensor] and [Normalize] make of the byte [b] of
    channel [c]: [(b / 255 - mean[c]) / std[c]]. *)
Definition normalize_value (c : nat) (v : F) : F :=
  div (sub v (nth c MEAN zero)) (nth c STD zero).

Definition byte_value (b : byte) : F := div (of_byte b) (lit 255 1).

(** One value through [Normalize] and back through the loop of
    [denormalize], both with the constants of channel [c]. *)
Definition roundtrip_value (c : nat) (v : F) : F :=
  add (mul (normalize_value c v) (nth c STD zero)) (nth c MEAN zero).

End DenormalizeSpec.

(** The first row and column that [center_crop 224] keeps of a square image
    of side [s >= 224]. *)
Definition crop_offset (s : nat) : nat := round_half (s - 224).

(** What is used of PIL's resampling: the result has the size asked for and
    three channels. *)
Definition resize_contract (resize : nat -> nat -> image8 -> image8) : Prop :=
  forall (s h w : nat) (img : image8),
    0 < s -> 0 < h -> 0 < w -> has_shape [h; w; 3] img = true ->
    has_shape [s; s; 3] (resize s s img) = true.

(** ** Sample data *)

Module Sample.

(** A class table of three names. *)
Definition names : list string :=
  ["squat"%string; "pushup"%string; "plank"%string].

(** A part of what OpenCV's rasterizer covers.  In [FONT_HERSHEY_SIMPLEX]
    the letter l is one vertical stroke from the cap height to the base
    line; at scale 0.7 and thickness 2 a text that begins with it, drawn at
    [(ox, oy)], fills the rectangle from column [ox + 1.8] to [ox + 3.8] and
    from row [oy - 14.7] to [oy].  [strokes] marks column [ox + 3] of rows
    [oy - 12] to [oy - 2] for such a text and nothing else: every pixel it
    marks is one that OpenCV paints. *)
Definition strokes (text : string) (org : nat * nat) (y x : nat) : bool :=
  match text with
  | String "l" _ =>
      (12 <=? snd org) && (x =? fst org + 3)
      && (snd org - 12 <=? y) && (y <=? snd org - 2)
  | _ => false
  end.

(** A class table whose first label begins with the letter l. *)
Definition names_l : list string := ["lunge"%string; "squat"%string].

(** [h] x [w] planes and batches of one image filled with [v]. *)
Definition plane {F} (h w : nat) (v : F) : tensor F :=
  TN (repeat (TN (repeat (T0 v) w)) h).

Definition batch1 {F} (h w : nat) (v : F) : tensor F :=
  TN [TN [plane h w v; plane h w v; plane h w v]].

(** Nearest-neighbour resampling, an instance of the resize contract. *)
Definition nearest (h w : nat) (img : image8) : image8 :=
  let h0 := nth 0 (shape img) 0 in
  let w0 := nth 1 (shape img) 0 in
  build3 h w 3 (fun i j k => get3 x00 img (i * h0 / h) (j * w0 / w) k).

(** A network whose scores are its weights in evaluation mode and depend
    on the generator in training mode. *)
Definition toy_forward (d : device) (w : list R) (training : bool) (g : R)
    (x : tensor R) : res (list (list R)) :=
  Ok [if training then map (Rplus g) w else w].

(** Surroundings of a run: a checkpoint that loads, a directory without
    pictures. *)
Definition toy_load (path : string) : res (list R) := Ok [1%R; 2%R].
Definition toy_state_dict (ck : list R) : res (list R) := Ok ck.
Definition toy_build (fine_tune : bool) (num_classes : nat) : net (list R) :=
  {| weights := repeat 0%R num_classes; training := true |}.
Definition toy_load_state_dict (m : net (list R)) (w : list R)
  : res (net (list R)) :=
  Ok {| weights := w; training := training m |}.
Definition toy_listdir (dir : string) : list string :=
  ["notes.txt"%string; "a.png"%string; ".jpg"%string].
Definition toy_imread (path : string) : option image8 := None.

(** A 2 x 2 picture. *)
Definition pixel (r g b : byte) : image8 := TN [T0 r; T0 g; T0 b].
Definition picture : image8 :=
  TN [TN [pixel x00 x7f xff; pixel x10 x20 x30];
      TN [pixel xff xff xff; pixel x00 x00 x00]].

Definition toy_args : args :=
  {| weights_path := "../outputs/best_model.pth"; input := "pictures" |}.

End Sample.

(** ** The specification's softmax and arg-max *)

Section ArgmaxSpec.
Context {F : Type} `{Scalar F}.

(** [m] is a largest entry of [l]. *)
Definition greatest (m : F) (l : list F) : Prop :=
  In m l /\ forall x, In x l -> leb x m = true.

(** "Index of the largest value in a sequence", the first one: every entry
    is below or equal to entry [k], and no earlier entry reaches it. *)
Definition first_max (l : list F) (k : nat) : Prop :=
  k < length l
  /\ (forall j, j < length l -> leb (nth j l zero) (nth k l zero) = true)
  /\ (forall j, j < k -> leb (nth k l zero) (nth j l zero) = false).

(** A NaN counts as larger than every number: the index of the first one. *)
Definition first_nan (l : list F) (k : nat) : Prop :=
  k < length l
  /\ is_nan_value (nth k l zero) = true
  /\ (forall j, j < k -> is_nan_value (nth j l zero) = false).

End ArgmaxSpec.

(** The comparison of an element type is a total preorder away from NaN. *)
Class OrderLaws (F : Type) `{Scalar F} : Prop := {
  leb_trans : forall x y z : F,
    leb x y = true -> leb y z = true -> leb x z = true;
  leb_total : forall x y : F,
    leb x x = true -> leb y y = true -> leb x y = true \/ leb y x = true;
  leb_refl_l : forall x y : F, leb x y = true -> leb x x = true;
  leb_refl_r : forall x y : F, leb x y = true -> leb y y = true
}.

Arguments OrderLaws F {_}.

(** The order of binary32 numbers as the comparison reads it: the class of
    the number, then its exponent, then its mantissa. *)
Definition b32_key (x : B32.t) : Z * Z * Z :=
  match x with
  | S754_zero _ => (0, 0, 0)%Z
  | S754_infinity false => (2, 0, 0)%Z
  | S754_infinity true => (-2, 0, 0)%Z
  | S754_nan => (3, 0, 0)%Z
  | S754_finite false m e => (1, e, Z.pos m)%Z
  | S754_finite true m e => (-1, - e, Z.neg m)%Z
  end.

Definition key_le (a b : Z * Z * Z) : Prop :=
  let '(a1, a2, a3) := a in
  let '(b1, b2, b3) := b in
  (a1 < b1 \/ (a1 = b1 /\ (a2 < b2 \/ (a2 = b2 /\ a3 <= b3))))%Z.

(** ** Readings of traces and paths *)

(** The paths handed to [cv2.imwrite], in order. *)
Definition written_paths {F : Type} (tr : list (event F)) : list string :=
  flat_map (fun e => match e with
                     | Imwrite path _ => [path]
                     | _ => []
                     end) tr.

(** Where the driver writes the result for the picture at [image_path]. *)
Definition out_path (image_path : string) : string :=
  path_join INFER_RESULT_PATH (last_component image_path).

(** [name] contains no path separator. *)
Fixpoint no_sep (name : string) : bool :=
  match name with
  | EmptyString => true
  | String c name' => negb (Ascii.eqb c "/") && no_sep name'
  end.

(** The value [v * std[k] + mean[k]] that the loop of [denormalize] writes
    for child [k] of its argument. *)
Definition scale_value {F : Type} `{Scalar F} (k : nat) (v : F) : F :=
  add (mul v (nth k STD zero)) (nth k MEAN zero).

(** More sample data. *)
Module Sample2.

(** A directory with one picture that decodes. *)
Definition listdir (dir : string) : list string :=
  ["readme.md"%string; "cat.jpg"%string].
Definition imread (path : string) : option image8 := Some Sample.picture.

(** A directory whose first picture does not decode. *)
Definition imread_none (path : string) : option image8 := None.

(** A network with as many scores as [Sample.names] has entries. *)
Definition model : net (list R) :=
  {| weights := [0%R; 1%R; 0%R]; training := true |}.

(** A network over binary32 numbers whose scores are its weights. *)
Definition forward32 (d : device) (w : list B32.t) (training : bool)
    (g : unit) (x : tensor B32.t) : res (list (list B32.t)) :=
  Ok [w].

Definition model32 : net (list B32.t) :=
  {| weights := [lit 1 1; lit 2 1; lit 0 1]; training := true |}.

End Sample2.

(** * Properties *)

Unset Implicit Arguments.

(** ** Tensors *)

Section TensorFacts.
Context {F : Type}.

Lemma forallb_map_compose {A B} (f : A -> B) (p : B -> bool) (l : list A) :
  forallb p (map f l) = forallb (fun a => p (f a)) l.
Proof. induction l as [| a l IH]; simpl; [reflexivity | now rewrite IH]. Qed.

Lemma forallb_pointwise {A} (p q : A -> bool) (l : list A) :
  (forall a, p a = q a) -> forallb p l = forallb q l.
Proof.
  intros Hpq. induction l as [| a l IH]; simpl; [reflexivity |].
  now rewrite Hpq, IH.
Qed.

Lemma tmap_tmap {G K} (f : F -> G) (g : G -> K) (x : tensor F) :
  tmap g (tmap f x) = tmap (fun v => g (f v)) x.
Proof.
  induction x as [v | ts IH] using tensor_induction; simpl.
  - reflexivity.
  - f_equal. rewrite map_map. apply map_ext_Forall. exact IH.
Qed.

Lemma tmap_ext_id (f : F -> F) (x : tensor F) :
  (forall v, f v = v) -> tmap f x = x.
Proof.
  intros Hf.
  induction x as [v | ts IH] using tensor_induction; simpl.
  - now rewrite Hf.
  - f_equal. rewrite <- (map_id ts) at 2. apply map_ext_Forall. exact IH.
Qed.

Lemma has_shape_cons (n : nat) (s : list nat) (x : tensor F) :
  has_shape (n :: s) x = true <->
  exists ts, x = TN ts /\ length ts = n
             /\ Forall (fun t => has_shape s t = true) ts.
Proof.
  split.
  - destruct x as [v | ts]; simpl; [discriminate |].
    intros Hx. apply andb_prop in Hx. destruct Hx as [Hn Hall].
    exists ts. split; [reflexivity |]. split.
    + now apply Nat.eqb_eq.
    + apply Forall_forall. now apply forallb_forall.
  - intros (ts & -> & Hn & Hall). simpl.
    apply andb_true_intro. split.
    + now apply Nat.eqb_eq.
    + apply forallb_forall. now apply Forall_forall.
Qed.

Lemma has_shape_tmap {G} (f : F -> G) (s : list nat) :
  forall x : tensor F, has_shape s (tmap f x) = has_shape s x.
Proof.
  induction s as [| n s IH]; intros [v | ts]; simpl; try reflexivity.
  rewrite length_map. f_equal.
  rewrite forallb_map_compose. apply forallb_pointwise. intros t. apply IH.
Qed.

(** A rectangular tensor with positive extents has the shape it was
    checked against. *)
Lemma has_shape_shape (s : list nat) :
  forall x : tensor F,
    has_shape s x = true -> Forall (fun n => 0 < n) s -> shape x = s.
Proof.
  induction s as [| n s IH]; intros x Hx Hpos.
  - destruct x; [reflexivity | discriminate].
  - apply has_shape_cons in Hx. destruct Hx as (ts & -> & Hn & Hall).
    inversion Hpos as [| ? ? Hn0 Hs]; subst. simpl.
    destruct ts as [| t ts]; [simpl in Hn0; lia |].
    f_equal. inversion Hall; subst. now apply IH.
Qed.

Lemma has_shape_tnth (d : F) (n : nat) (s : list nat) (x : tensor F) (i : nat) :
  has_shape (n :: s) x = true -> i < n -> has_shape s (tnth d x i) = true.
Proof.
  intros Hx Hi. apply has_shape_cons in Hx.
  destruct Hx as (ts & -> & Hn & Hall). simpl.
  rewrite Forall_forall in Hall. apply Hall. apply nth_In. lia.
Qed.

(** Entries of a tensor given by its entries. *)
Lemma has_shape_build3 (a b c : nat) (f : nat -> nat -> nat -> F) :
  has_shape [a; b; c] (build3 a b c f) = true.
Proof.
  unfold build3. simpl. rewrite length_map, length_seq, Nat.eqb_refl. simpl.
  rewrite forallb_map_compose. apply forallb_forall. intros i _. simpl.
  rewrite length_map, length_seq, Nat.eqb_refl. simpl.
  rewrite forallb_map_compose. apply forallb_forall. intros j _. simpl.
  rewrite length_map, length_seq, Nat.eqb_refl. simpl.
  rewrite forallb_map_compose. apply forallb_forall. intros k _. reflexivity.
Qed.

Lemma nth_map_seq {A} (g : nat -> A) (n i : nat) (d : A) :
  i < n -> nth i (map g (seq 0 n)) d = g i.
Proof.
  intros Hi. rewrite (nth_indep _ d (g 0)) by now rewrite length_map, length_seq.
  rewrite (map_nth g (seq 0 n) 0 i). now rewrite seq_nth.
Qed.

Lemma get3_build3 (d : F) (a b c : nat) (f : nat -> nat -> nat -> F)
    (i j k : nat) :
  i < a -> j < b -> k < c -> get3 d (build3 a b c f) i j k = f i j k.
Proof.
  intros Hi Hj Hk. unfold get3, build3, tnth.
  rewrite nth_map_seq by assumption.
  rewrite nth_map_seq by assumption.
  now rewrite nth_map_seq by assumption.
Qed.

Lemma tmap_ext (f g : F -> F) (x : tensor F) :
  (forall v, f v = g v) -> tmap f x = tmap g x.
Proof.
  intros Hfg.
  induction x as [v | ts IH] using tensor_induction; simpl.
  - now rewrite Hfg.
  - f_equal. apply map_ext_Forall. exact IH.
Qed.

Lemma tmap_fixes (p : F -> bool) (f : F -> F) (x : tensor F) :
  (forall v, p v = true -> f v = v) -> tall p x = true -> tmap f x = x.
Proof.
  intros Hf.
  induction x as [v | ts IH] using tensor_induction; simpl; intros Hx.
  - now rewrite Hf.
  - f_equal. rewrite <- (map_id ts) at 2. apply map_ext_Forall.
    rewrite forallb_forall in Hx. rewrite Forall_forall in IH |- *.
    intros t Ht. apply IH; [exact Ht |]. now apply Hx.
Qed.

Lemma tnth_tmap_in {G : Type} (f : F -> G) (d : F) (e : G) (n : nat)
    (s : list nat) (x : tensor F) (i : nat) :
  has_shape (n :: s) x = true -> i < n ->
  tnth e (tmap f x) i = tmap f (tnth d x i).
Proof.
  intros Hx Hi. apply has_shape_cons in Hx.
  destruct Hx as (ts & -> & Hn & _). cbn [tmap tnth].
  rewrite (nth_indep _ (T0 e) (tmap f (T0 d))) by (rewrite length_map; lia).
  apply map_nth.
Qed.

Lemma get3_tmap {G : Type} (f : F -> G) (d : F) (e : G) (a b c : nat)
    (x : tensor F) (i j k : nat) :
  has_shape [a; b; c] x = true -> i < a -> j < b -> k < c ->
  get3 e (tmap f x) i j k = f (get3 d x i j k).
Proof.
  intros Hx Hi Hj Hk. unfold get3.
  pose proof (has_shape_tnth d _ _ _ i Hx Hi) as Hxi.
  pose proof (has_shape_tnth d _ _ _ j Hxi Hj) as Hxij.
  pose proof (has_shape_tnth d _ _ _ k Hxij Hk) as Hxijk.
  rewrite (tnth_tmap_in f d e a [b; c] x i Hx Hi).
  rewrite (tnth_tmap_in f d e b [c] _ j Hxi Hj).
  rewrite (tnth_tmap_in f d e c [] _ k Hxij Hk).
  destruct (tnth d (tnth d (tnth d x i) j) k); [reflexivity | discriminate].
Qed.

Lemma tall_tnth (p : F -> bool) (d : F) (n : nat) (s : list nat)
    (x : tensor F) (i : nat) :
  has_shape (n :: s) x = true -> i < n -> tall p x = true ->
  tall p (tnth d x i) = true.
Proof.
  intros Hx Hi Hp. apply has_shape_cons in Hx.
  destruct Hx as (ts & -> & Hn & _). cbn [tall tnth] in *.
  rewrite forallb_forall in Hp. apply Hp. apply nth_In. lia.
Qed.

Lemma tall_get3 (p : F -> bool) (d : F) (a b c : nat) (x : tensor F)
    (i j k : nat) :
  has_shape [a; b; c] x = true -> i < a -> j < b -> k < c ->
  tall p x = true -> p (get3 d x i j k) = true.
Proof.
  intros Hx Hi Hj Hk Hp. unfold get3.
  pose proof (has_shape_tnth d _ _ _ i Hx Hi) as Hxi.
  pose proof (has_shape_tnth d _ _ _ j Hxi Hj) as Hxij.
  pose proof (has_shape_tnth d _ _ _ k Hxij Hk) as Hxijk.
  pose proof (tall_tnth p d _ _ _ i Hx Hi Hp) as Hpi.
  pose proof (tall_tnth p d _ _ _ j Hxi Hj Hpi) as Hpij.
  pose proof (tall_tnth p d _ _ _ k Hxij Hk Hpij) as Hpijk.
  destruct (tnth d (tnth d (tnth d x i) j) k); [exact Hpijk | discriminate].
Qed.

End TensorFacts.

(** ** Pixels, crops and padding *)

Section PixelFacts.
Context {A : Type}.

Lemma nth_mapi {X B} (g : nat -> X -> B) (l : list X) (i : nat) (d : X) (e : B) :
  i < length l ->
  nth i (map (fun p => g (fst p) (snd p)) (combine (seq 0 (length l)) l)) e
  = g i (nth i l d).
Proof.
  intros Hi.
  assert (Hlen : length (combine (seq 0 (length l)) l) = length l)
    by (rewrite length_combine, length_seq; lia).
  rewrite (nth_indep _ e (g 0 d)) by (rewrite length_map; lia).
  rewrite (map_nth (fun p => g (fst p) (snd p)) _ (0, d) i).
  rewrite combine_nth by now rewrite length_seq.
  simpl. now rewrite seq_nth.
Qed.

Lemma Forall_mapi {X B} (g : nat -> X -> B) (P : X -> Prop) (Q : B -> Prop)
    (l : list X) (ns : list nat) :
  Forall P l -> (forall n a, P a -> Q (g n a)) ->
  Forall Q (map (fun p => g (fst p) (snd p)) (combine ns l)).
Proof.
  intros Hl Hg. revert ns.
  induction Hl as [| a l Ha Hl IH]; intros [| n ns]; simpl; constructor.
  - now apply Hg.
  - apply IH.
Qed.

(** [mapi_pixels] keeps the layout when [f] keeps the pixels' length, and
    acts on the pixel in row [y], column [x] as [f y x]. *)
Lemma has_shape_mapi_pixels (f : nat -> nat -> tensor A -> tensor A)
    (h w c : nat) (img : tensor A) :
  (forall y x px, has_shape [c] px = true -> has_shape [c] (f y x px) = true) ->
  has_shape [h; w; c] img = true ->
  has_shape [h; w; c] (mapi_pixels f img) = true.
Proof.
  intros Hf Himg.
  apply has_shape_cons in Himg. destruct Himg as (rows & -> & Hh & Hrows).
  apply has_shape_cons. eexists. split; [reflexivity |]. split.
  - rewrite length_map, length_combine, length_seq. lia.
  - apply (Forall_mapi
             (fun y row => match row with
                           | T0 _ => row
                           | TN pxs =>
                               TN (map (fun xp => f y (fst xp) (snd xp))
                                       (combine (seq 0 (length pxs)) pxs))
                           end)
             (fun t => has_shape [w; c] t = true)
             (fun t => has_shape [w; c] t = true));
      [exact Hrows |].
    intros y row Hrow.
    apply has_shape_cons in Hrow. destruct Hrow as (pxs & -> & Hw & Hpxs).
    apply has_shape_cons. eexists. split; [reflexivity |]. split.
    + rewrite length_map, length_combine, length_seq. lia.
    + apply (Forall_mapi (fun x px => f y x px)
               (fun t => has_shape [c] t = true)
               (fun t => has_shape [c] t = true)); [exact Hpxs |].
      intros x px. apply Hf.
Qed.

Lemma pixel_mapi_pixels (f : nat -> nat -> tensor A -> tensor A) (d : A)
    (h w c : nat) (img : tensor A) (y x : nat) :
  has_shape [h; w; c] img = true -> y < h -> x < w ->
  tnth d (tnth d (mapi_pixels f img) y) x
  = f y x (tnth d (tnth d img y) x).
Proof.
  intros Himg Hy Hx.
  pose proof (has_shape_tnth d _ _ _ y Himg Hy) as Hrow.
  apply has_shape_cons in Himg. destruct Himg as (rows & -> & Hh & _).
  apply has_shape_cons in Hrow. destruct Hrow as (pxs & Epxs & Hw & _).
  unfold mapi_pixels. cbn [tnth] in Epxs |- *.
  rewrite (nth_mapi
             (fun y row => match row with
                           | T0 _ => row
                           | TN pxs =>
                               TN (map (fun xp => f y (fst xp) (snd xp))
                                       (combine (seq 0 (length pxs)) pxs))
                           end) rows y (T0 d) (T0 d)) by lia.
  rewrite Epxs. cbn [tnth].
  now rewrite (nth_mapi (fun x px => f y x px) pxs x (T0 d) (T0 d)) by lia.
Qed.

(** Exchanging the outer channels of an image given by its entries. *)
Lemma map_pixels_swap_build3 (h w : nat) (g : nat -> nat -> nat -> A) :
  map_pixels swap_rb (build3 h w 3 g)
  = build3 h w 3 (fun i j k => g i j (2 - k)).
Proof.
  unfold build3, map_pixels. f_equal.
  rewrite map_map. apply map_ext. intros i. f_equal.
  rewrite map_map. apply map_ext. intros j. reflexivity.
Qed.

End PixelFacts.

Section CropFacts.
Context {A : Type}.

Lemma round_half_le (d : nat) : round_half d <= d.
Proof.
  unfold round_half.
  pose proof (Nat.div_mod_eq d 2) as Hd.
  pose proof (Nat.mod_upper_bound d 2 ltac:(lia)) as Hm.
  destruct (Nat.even d) eqn:Ed; [lia |].
  assert (Hodd : d mod 2 = 1).
  { destruct (Nat.eq_dec (d mod 2) 0) as [E0 | E0]; [| lia].
    apply Nat.Div0.mod_divides in E0. destruct E0 as [q ->].
    rewrite Nat.even_mul in Ed. discriminate Ed. }
  destruct (Nat.even (d / 2)); lia.
Qed.

Lemma nth_firstn_skipn {X : Type} (l : list X) (a n i : nat) (d : X) :
  i < n -> nth i (firstn n (skipn a l)) d = nth (a + i) l d.
Proof.
  intros Hi. rewrite nth_firstn.
  replace (i <? n) with true by (symmetry; now apply Nat.ltb_lt).
  apply nth_skipn.
Qed.

Lemma length_firstn_skipn {X : Type} (l : list X) (a n : nat) :
  a + n <= length l -> length (firstn n (skipn a l)) = n.
Proof. intros Hl. rewrite length_firstn, length_skipn. lia. Qed.

Lemma Forall_firstn_skipn {X : Type} (P : X -> Prop) (l : list X) (a n : nat) :
  Forall P l -> Forall P (firstn n (skipn a l)).
Proof.
  intros Hl.
  assert (Hskip : Forall P (skipn a l)).
  { revert a. induction Hl as [| x l Hx Hl IH]; intros [| a]; simpl;
      try constructor; try assumption. apply IH. }
  clear Hl. revert n.
  induction Hskip as [| x l' Hx Hl' IH]; intros [| n]; simpl;
    constructor; try assumption. apply IH.
Qed.

Lemma has_shape_crop (H W c : nat) (img : tensor A) (top left h w : nat) :
  has_shape [H; W; c] img = true -> top + h <= H -> left + w <= W ->
  has_shape [h; w; c] (crop img top left h w) = true.
Proof.
  intros Himg Hh Hw.
  apply has_shape_cons in Himg. destruct Himg as (rows & -> & HH & Hrows).
  apply has_shape_cons. eexists. split; [reflexivity |]. split.
  - rewrite length_map. apply length_firstn_skipn. cbn [rows_of]. lia.
  - apply Forall_map. cbn [rows_of].
    apply (Forall_firstn_skipn _ rows top h) in Hrows.
    revert Hrows. apply Forall_impl. intros row Hrow.
    apply has_shape_cons in Hrow. destruct Hrow as (pxs & -> & HW & Hpxs).
    apply has_shape_cons. eexists. split; [reflexivity |]. split.
    + apply length_firstn_skipn. cbn [rows_of]. lia.
    + now apply Forall_firstn_skipn.
Qed.

Lemma get3_crop (d : A) (H W c : nat) (img : tensor A)
    (top left h w i j k : nat) :
  has_shape [H; W; c] img = true -> top + h <= H -> left + w <= W ->
  i < h -> j < w ->
  get3 d (crop img top left h w) i j k = get3 d img (top + i) (left + j) k.
Proof.
  intros Himg Hh Hw Hi Hj. unfold get3.
  assert (Hti : top + i < H) by lia.
  pose proof (has_shape_tnth d _ _ _ (top + i) Himg Hti) as Hrow.
  apply has_shape_cons in Himg. destruct Himg as (rows & -> & HH & _).
  unfold crop. cbn [tnth rows_of] in Hrow |- *.
  rewrite (nth_indep _ (T0 d)
             (TN (firstn w (skipn left (rows_of (T0 d))))))
    by (rewrite length_map, length_firstn_skipn; cbn [rows_of]; lia).
  rewrite (map_nth (fun row => TN (firstn w (skipn left (rows_of row))))).
  rewrite nth_firstn_skipn by exact Hi.
  apply has_shape_cons in Hrow. destruct Hrow as (pxs & -> & HW & _).
  cbn [tnth rows_of]. now rewrite nth_firstn_skipn by exact Hj.
Qed.

Lemma Forall_repeat {X : Type} (P : X -> Prop) (x : X) (n : nat) :
  P x -> Forall P (repeat x n).
Proof. intros Hx. induction n; simpl; constructor; assumption. Qed.

Lemma has_shape_pad (H W c : nat) (fill img : tensor A) (l t r b : nat) :
  0 < H -> 0 < W -> 0 < c ->
  has_shape [c] fill = true -> has_shape [H; W; c] img = true ->
  has_shape [t + H + b; l + W + r; c] (pad fill l t r b img) = true.
Proof.
  intros HH HW Hc Hfill Himg. unfold pad.
  rewrite (has_shape_shape [H; W; c] img Himg) by (repeat constructor; lia).
  cbn [nth].
  apply has_shape_cons in Himg. destruct Himg as (rows & -> & Hlen & Hrows).
  cbn [rows_of].
  assert (Hblank : has_shape [l + W + r; c] (TN (repeat fill (l + W + r))) = true).
  { apply has_shape_cons. eexists. split; [reflexivity |].
    split; [apply repeat_length | now apply Forall_repeat]. }
  apply has_shape_cons. eexists. split; [reflexivity |]. split.
  - rewrite !length_app, !repeat_length, length_map. lia.
  - apply Forall_app. split; [now apply Forall_repeat |].
    apply Forall_app. split; [| now apply Forall_repeat].
    apply Forall_map. revert Hrows. apply Forall_impl. intros row Hrow.
    apply has_shape_cons in Hrow. destruct Hrow as (pxs & -> & Hw & Hpxs).
    apply has_shape_cons. eexists. split; [reflexivity |]. split.
    + cbn [rows_of]. rewrite !length_app, !repeat_length. lia.
    + cbn [rows_of]. apply Forall_app. split; [now apply Forall_repeat |].
      apply Forall_app. split; [exact Hpxs | now apply Forall_repeat].
Qed.

End CropFacts.

Lemma round_half_centered (d : nat) :
  d <= 2 * round_half d + 1 /\ 2 * round_half d <= d + 1.
Proof.
  unfold round_half.
  pose proof (Nat.div_mod_eq d 2) as Hd.
  pose proof (Nat.mod_upper_bound d 2 ltac:(lia)) as Hm.
  destruct (Nat.even d) eqn:Ed.
  - apply Nat.even_spec in Ed. destruct Ed as [m Em]. lia.
  - assert (Ho : Nat.odd d = true) by (unfold Nat.odd; now rewrite Ed).
    apply Nat.odd_spec in Ho. destruct Ho as [m Em].
    destruct (Nat.even (d / 2)); lia.
Qed.

(** Cropping the centre of a square image that is large enough. *)
Lemma center_crop_square (s : nat) (img : image8) :
  224 <= s -> has_shape [s; s; 3] img = true ->
  center_crop 224 img = crop img (crop_offset s) (crop_offset s) 224 224.
Proof.
  intros Hs Himg. unfold center_crop.
  rewrite (has_shape_shape [s; s; 3] img Himg) by (repeat constructor; lia).
  cbn [nth].
  replace (s <? 224) with false by (symmetry; apply Nat.ltb_ge; lia).
  cbn [orb andb].
  rewrite (has_shape_shape [s; s; 3] img Himg) by (repeat constructor; lia).
  reflexivity.
Qed.

(** [center_crop 224] returns a 224 x 224 picture whatever the side of the
    square it is given. *)
Lemma has_shape_center_crop (s : nat) (img : image8) :
  0 < s -> has_shape [s; s; 3] img = true ->
  has_shape [224; 224; 3] (center_crop 224 img) = true.
Proof.
  intros Hs Himg.
  destruct (Nat.lt_ge_cases s 224) as [Hsmall | Hlarge].
  - unfold center_crop.
    rewrite (has_shape_shape [s; s; 3] img Himg) by (repeat constructor; lia).
    cbn [nth].
    replace (s <? 224) with true by (symmetry; now apply Nat.ltb_lt).
    cbn [orb andb].
    assert (Hpad : has_shape [224; 224; 3]
                     (pad (TN (repeat (T0 x00) 3))
                          ((224 - s) / 2) ((224 - s) / 2)
                          ((224 - s + 1) / 2) ((224 - s + 1) / 2) img) = true).
    { pose proof (has_shape_pad s s 3 (TN (repeat (T0 x00) 3)) img
                    ((224 - s) / 2) ((224 - s) / 2)
                    ((224 - s + 1) / 2) ((224 - s + 1) / 2)
                    Hs Hs ltac:(lia) eq_refl Himg) as Hp.
      assert (Hsum : (224 - s) / 2 + s + (224 - s + 1) / 2 = 224).
      { pose proof (Nat.div_mod_eq (224 - s) 2).
        pose proof (Nat.mod_upper_bound (224 - s) 2 ltac:(lia)).
        pose proof (Nat.div_mod_eq (224 - s + 1) 2).
        pose proof (Nat.mod_upper_bound (224 - s + 1) 2 ltac:(lia)).
        lia. }
      now rewrite Hsum in Hp. }
    rewrite (has_shape_shape [224; 224; 3] _ Hpad) by (repeat constructor; lia).
    cbn [nth Nat.eqb]. exact Hpad.
  - rewrite (center_crop_square s img Hlarge Himg).
    pose proof (round_half_le (s - 224)) as Hoff. fold (crop_offset s) in Hoff.
    apply (has_shape_crop s s 3); (assumption || lia).
Qed.

Lemma get3_center_crop (s : nat) (img : image8) (i j k : nat) :
  224 <= s -> has_shape [s; s; 3] img = true -> i < 224 -> j < 224 ->
  get3 x00 (center_crop 224 img) i j k
  = get3 x00 img (crop_offset s + i) (crop_offset s + j) k.
Proof.
  intros Hs Himg Hi Hj. rewrite (center_crop_square s img Hs Himg).
  pose proof (round_half_le (s - 224)) as Hoff. fold (crop_offset s) in Hoff.
  apply (get3_crop x00 s s 3); (assumption || lia).
Qed.

(** ** List indexing *)

Lemma py_index_in_range {A} (l : list A) (i : Z) (d : A) :
  (- Z.of_nat (length l) <= i < Z.of_nat (length l))%Z ->
  py_index l i
  = Ok (nth (Z.to_nat (if (i <? 0)%Z then i + Z.of_nat (length l) else i)) l d).
Proof.
  intros Hi. unfold py_index.
  set (j := (if (i <? 0)%Z then (i + Z.of_nat (length l))%Z else i)).
  assert (Hj : (0 <= j < Z.of_nat (length l))%Z)
    by (subst j; destruct (Z.ltb_spec i 0); lia).
  replace ((0 <=? j)%Z && (j <? Z.of_nat (length l))%Z) with true
    by (symmetry; apply andb_true_intro; split;
        [apply Z.leb_le | apply Z.ltb_lt]; lia).
  destruct (nth_error l (Z.to_nat j)) as [a |] eqn:E.
  - f_equal. symmetry. now apply nth_error_nth.
  - apply nth_error_None in E. lia.
Qed.

Lemma py_index_out_of_range {A} (l : list A) (i : Z) :
  (i < - Z.of_nat (length l) \/ Z.of_nat (length l) <= i)%Z ->
  py_index l i = Raise IndexError.
Proof.
  intros Hi. unfold py_index.
  set (j := (if (i <? 0)%Z then (i + Z.of_nat (length l))%Z else i)).
  assert (Hj : (j < 0 \/ Z.of_nat (length l) <= j)%Z)
    by (subst j; destruct (Z.ltb_spec i 0); lia).
  replace ((0 <=? j)%Z && (j <? Z.of_nat (length l))%Z) with false;
    [reflexivity |].
  symmetry. apply andb_false_iff.
  destruct Hj; [left; apply Z.leb_gt | right; apply Z.ltb_ge]; lia.
Qed.

(** ** The real-number instance *)

Local Open Scope R_scope.

Lemma zero_R : zero (F := R) = 0.
Proof. unfold zero. cbn [lit R_scalar]. lra. Qed.

Lemma one_R : one (F := R) = 1.
Proof. unfold one. cbn [lit R_scalar]. lra. Qed.

Lemma leb_R_false (x y : R) : y < x -> leb x y = false.
Proof. intros Hxy. cbn [leb R_scalar]. destruct (Rle_dec x y); [lra | reflexivity]. Qed.

Lemma std_R_nonzero :
  existsb (fun s : R => leb s zero && leb zero s) STD = false.
Proof.
  unfold STD. cbn [existsb]. rewrite zero_R.
  repeat (rewrite leb_R_false by (cbn [lit R_scalar]; lra); cbn [andb orb]).
  reflexivity.
Qed.

(** Normalizing and rescaling one value with the constants of one channel. *)
Lemma mul_add_sub_div (m s v : R) : s <> 0 -> (v - m) / s * s + m = v.
Proof. intros Hs. field. exact Hs. Qed.

Lemma clamp1_unit_R (v : R) : in_unit v = true -> clamp1 zero one v = v.
Proof.
  unfold in_unit, clamp1. rewrite zero_R, one_R. cbn [leb ltb R_scalar].
  destruct (Rle_dec 0 v), (Rle_dec v 1); try discriminate. intros _.
  destruct (Rlt_dec v 0); [lra |]. destruct (Rlt_dec 1 v); [lra | reflexivity].
Qed.

Local Close Scope R_scope.

(** ** The binary32 instance: no NaN out of finite arithmetic, and the order *)

Section Rounding.
Variables prec emax : Z.

Lemma iter_pos_invariant {A : Type} (P : A -> Prop) (f : A -> A) :
  (forall a, P a -> P (f a)) ->
  forall (n : positive) (a : A), P a -> P (iter_pos f n a).
Proof.
  intros Hf. induction n as [n IH | n IH |]; intros a Ha; simpl.
  - apply IH, IH, Hf, Ha.
  - apply IH, IH, Ha.
  - apply Hf, Ha.
Qed.

Lemma shr_1_nonneg (mrs : shr_record) :
  (0 <= shr_m mrs)%Z -> (0 <= shr_m (shr_1 mrs))%Z.
Proof.
  destruct mrs as [m r s]. simpl.
  destruct m as [| [p | p |] | p]; simpl; lia.
Qed.

Lemma shr_fexp_nonneg (m e : Z) (l : location) :
  (0 <= m)%Z -> (0 <= shr_m (fst (shr_fexp prec emax m e l)))%Z.
Proof.
  intros Hm. unfold shr_fexp, shr.
  assert (H0 : (0 <= shr_m (shr_record_of_loc m l))%Z)
    by (destruct l as [| []]; exact Hm).
  destruct (fexp prec emax (Zdigits2 m + e) - e)%Z as [| p | p]; simpl;
    try exact H0.
  apply (iter_pos_invariant (fun mrs => (0 <= shr_m mrs)%Z)); [| exact H0].
  exact shr_1_nonneg.
Qed.

Lemma round_nearest_even_nonneg (m : Z) (l : location) :
  (0 <= m)%Z -> (0 <= round_nearest_even m l)%Z.
Proof.
  intros Hm. destruct l as [| []]; simpl; try lia.
  destruct (Z.even m); lia.
Qed.

(** Rounding a non-negative mantissa gives a zero, a finite number or an
    infinity. *)
Lemma binary_round_aux_not_nan (sx : bool) (mx ex : Z) (lx : location) :
  (0 <= mx)%Z -> B32.is_nan (binary_round_aux prec emax sx mx ex lx) = false.
Proof.
  intros Hm. unfold binary_round_aux.
  pose proof (shr_fexp_nonneg mx ex lx Hm) as H1.
  destruct (shr_fexp prec emax mx ex lx) as [mrs' e']. simpl in H1.
  pose proof (shr_fexp_nonneg
                (round_nearest_even (shr_m mrs') (loc_of_shr_record mrs'))
                e' loc_Exact (round_nearest_even_nonneg _ _ H1)) as H2.
  destruct (shr_fexp prec emax _ e' loc_Exact) as [mrs'' e'']. simpl in H2.
  destruct (shr_m mrs'') as [| p | p]; [reflexivity | | lia].
  now destruct (e'' <=? emax - prec)%Z.
Qed.

Lemma binary_normalize_not_nan (m e : Z) (szero : bool) :
  B32.is_nan (binary_normalize prec emax m e szero) = false.
Proof.
  destruct m as [| p | p]; simpl; [reflexivity | |];
    unfold binary_round;
    destruct (shl_align p e _) as [mz ez];
    apply binary_round_aux_not_nan; lia.
Qed.

Lemma SFmul_not_nan (x : spec_float) (s : bool) (m : positive) (e : Z) :
  B32.is_nan x = false ->
  B32.is_nan (SFmul prec emax x (S754_finite s m e)) = false.
Proof.
  destruct x as [sx | sx | | sx mx ex]; simpl; intros Hx;
    try reflexivity; try discriminate.
  apply binary_round_aux_not_nan. lia.
Qed.

Lemma SFadd_not_nan (x : spec_float) (s : bool) (m : positive) (e : Z) :
  B32.is_nan x = false ->
  B32.is_nan (SFadd prec emax x (S754_finite s m e)) = false.
Proof.
  destruct x as [sx | sx | | sx mx ex]; simpl; intros Hx;
    try reflexivity; try discriminate.
  apply binary_normalize_not_nan.
Qed.

End Rounding.

Lemma SFcompare_antisym (x y : spec_float) :
  SFcompare y x = option_map CompOpp (SFcompare x y).
Proof.
  destruct x as [sx | sx | | sx mx ex], y as [sy | sy | | sy my ey]; simpl;
    try reflexivity;
    try (destruct sx; reflexivity); try (destruct sy; reflexivity);
    try (destruct sx, sy; reflexivity).
  assert (Hm : Pos.compare_cont Eq my mx = CompOpp (Pos.compare_cont Eq mx my))
    by (symmetry; apply (Pos.compare_cont_antisym mx my Eq)).
  f_equal. rewrite (Z.compare_antisym ex ey), Hm.
  destruct sx, sy; try reflexivity;
    destruct (ex ?= ey)%Z; simpl; try reflexivity;
    now rewrite CompOpp_involutive.
Qed.

(** For numbers that are not NaN, "not less than" is "at least". *)
Lemma SFltb_false_SFleb (x y : spec_float) :
  B32.is_nan x = false -> B32.is_nan y = false ->
  SFltb x y = false -> SFleb y x = true.
Proof.
  intros Hx Hy. unfold SFltb, SFleb. rewrite (SFcompare_antisym x y).
  destruct (SFcompare x y) as [[| |] |] eqn:E; simpl; try reflexivity;
    try discriminate.
  destruct x, y; simpl in *; discriminate.
Qed.

(** ** The order laws of the two instances *)

#[export] Instance R_order : OrderLaws R.
Proof.
  split; cbn [leb R_scalar].
  - intros x y z.
    destruct (Rle_dec x y), (Rle_dec y z), (Rle_dec x z);
      intros; try reflexivity; try discriminate; lra.
  - intros x y _ _.
    destruct (Rle_dec x y), (Rle_dec y x); auto; lra.
  - intros x y _. destruct (Rle_dec x x); [reflexivity | lra].
  - intros x y _. destruct (Rle_dec y y); [reflexivity | lra].
Qed.

Lemma SFleb_refl (x : spec_float) : B32.is_nan x = false -> SFleb x x = true.
Proof.
  destruct x as [s | s | | s m e]; intros Hx; try discriminate Hx;
    unfold SFleb; simpl; try (destruct s; reflexivity).
  rewrite Z.compare_refl, Pos.compare_cont_refl. destruct s; reflexivity.
Qed.

Lemma SFleb_not_nan (x y : spec_float) :
  SFleb x y = true -> B32.is_nan x = false /\ B32.is_nan y = false.
Proof.
  destruct x, y; unfold SFleb; simpl; intros Hxy;
    try discriminate Hxy; split; reflexivity.
Qed.

(** The comparison reads the order of the keys. *)
Lemma SFleb_key (x y : spec_float) :
  B32.is_nan x = false -> B32.is_nan y = false ->
  SFleb x y = true <-> key_le (b32_key x) (b32_key y).
Proof.
  destruct x as [sx | sx | | sx mx ex], y as [sy | sy | | sy my ey];
    intros Hx Hy; try discriminate Hx; try discriminate Hy;
    unfold SFleb; simpl;
    try (destruct sx; simpl; split; intros; try discriminate; try reflexivity; lia);
    try (destruct sy; simpl; split; intros; try discriminate; try reflexivity; lia);
    try (destruct sx, sy; simpl; split; intros; try discriminate; try reflexivity; lia).
  change (Pos.compare_cont Eq mx my) with (mx ?= my)%positive.
  destruct sx, sy; simpl;
    destruct (Z.compare_spec ex ey); simpl;
    destruct (Pos.compare_spec mx my); simpl;
    split; intros; try discriminate; try reflexivity; lia.
Qed.

Lemma key_le_trans (a b c : Z * Z * Z) :
  key_le a b -> key_le b c -> key_le a c.
Proof.
  destruct a as [[a1 a2] a3], b as [[b1 b2] b3], c as [[c1 c2] c3].
  unfold key_le. lia.
Qed.

#[export] Instance b32_order : OrderLaws B32.t.
Proof.
  split; cbn [leb b32_scalar].
  - intros x y z Hxy Hyz.
    destruct (SFleb_not_nan x y Hxy) as [Hx Hy].
    destruct (SFleb_not_nan y z Hyz) as [_ Hz].
    apply (SFleb_key x z Hx Hz).
    apply (key_le_trans _ (b32_key y)).
    + now apply (SFleb_key x y Hx Hy).
    + now apply (SFleb_key y z Hy Hz).
  - intros x y Hx Hy.
    destruct (SFleb_not_nan x x Hx) as [Hnx _].
    destruct (SFleb_not_nan y y Hy) as [Hny _].
    destruct (SFleb x y) eqn:E; [now left | right].
    unfold SFleb in *. rewrite (SFcompare_antisym x y).
    destruct (SFcompare x y) as [[| |] |] eqn:Ec; simpl; try discriminate E;
      try reflexivity.
    destruct x, y; simpl in *; discriminate.
  - intros x y Hxy. apply SFleb_refl. now destruct (SFleb_not_nan x y Hxy).
  - intros x y Hxy. apply SFleb_refl. now destruct (SFleb_not_nan x y Hxy).
Qed.

Lemma clamp1_in_unit (v : B32.t) :
  B32.is_nan v = false -> in_unit (clamp1 zero one v) = true.
Proof.
  intros Hv. unfold clamp1, in_unit.
  destruct (ltb v zero) eqn:E0; [reflexivity |].
  destruct (ltb one v) eqn:E1; [reflexivity |].
  apply andb_true_intro. split.
  - apply SFltb_false_SFleb; [exact Hv | reflexivity | exact E0].
  - apply SFltb_false_SFleb; [reflexivity | exact Hv | exact E1].
Qed.

Lemma scale0_not_nan (v : B32.t) :
  B32.is_nan v = false -> B32.is_nan (scale0 v) = false.
Proof.
  intros Hv. unfold scale0.
  change (lit 229 1000) with (S754_finite false 15367930 (-26)).
  change (lit 485 1000) with (S754_finite false 16273900 (-25)).
  apply SFadd_not_nan. apply SFmul_not_nan. exact Hv.
Qed.

Lemma std_b32_nonzero :
  existsb (fun v : B32.t => leb v zero && leb zero v) STD = false.
Proof. vm_compute. reflexivity. Qed.

(** Every byte, in every channel, lands between the images of 0 and 1. *)
Lemma normalized_byte_range (c : nat) (b : byte) :
  c < 3 ->
  finite (normalize_value (F := B32.t) c (byte_value b))
  && leb (normalize_value (F := B32.t) c zero) (normalize_value c (byte_value b))
  && leb (normalize_value (F := B32.t) c (byte_value b)) (normalize_value c one)
  = true.
Proof.
  intros Hc. destruct c as [| [| [| c]]]; [| | | lia];
    destruct b; vm_compute; reflexivity.
Qed.

(** In binary32 the round trip of a byte through the constants of its
    channel comes back within 2^-24 of the value it started from. *)
Lemma roundtrip_byte_b32 (c : nat) (b : byte) :
  c < 3 ->
  leb (SFabs (sub (roundtrip_value (F := B32.t) c (byte_value b))
                  (byte_value b)))
      (S754_finite false 8388608 (-47))
  = true.
Proof.
  intros Hc. destruct c as [| [| [| c]]]; [| | | lia];
    destruct b; vm_compute; reflexivity.
Qed.

(** It is not always exact: the byte 1 of the first channel comes back one
    unit in the last place lower. *)
Lemma roundtrip_byte_b32_inexact :
  roundtrip_value (F := B32.t) 0 (byte_value x01) <> byte_value x01.
Proof. vm_compute. intros E. discriminate E. Qed.

(** ** [get_test_transform] *)

Section TransformFacts.
Context {F : Type} `{Scalar F}.
Variable resize : nat -> nat -> image8 -> image8.

Lemma tmap_build3 {X Y : Type} (f : X -> Y) (a b c : nat)
    (g : nat -> nat -> nat -> X) :
  tmap f (build3 a b c g) = build3 a b c (fun i j k => f (g i j k)).
Proof.
  unfold build3. cbn [tmap]. f_equal.
  rewrite map_map. apply map_ext. intros i. cbn [tmap]. f_equal.
  rewrite map_map. apply map_ext. intros j. cbn [tmap]. f_equal.
  rewrite map_map. reflexivity.
Qed.

Lemma tmap_plane {X Y : Type} (f : X -> Y) (b c : nat) (g : nat -> nat -> X) :
  tmap f (TN (map (fun j => TN (map (fun k => T0 (g j k)) (seq 0 c))) (seq 0 b)))
  = TN (map (fun j => TN (map (fun k => T0 (f (g j k))) (seq 0 c))) (seq 0 b)).
Proof.
  cbn [tmap]. f_equal.
  rewrite map_map. apply map_ext. intros j. cbn [tmap]. f_equal.
  rewrite map_map. reflexivity.
Qed.

Lemma to_pil_image_ok (h w : nat) (img : image8) :
  0 < h -> 0 < w -> has_shape [h; w; 3] img = true -> to_pil_image img = Ok img.
Proof.
  intros Hh Hw Himg. unfold to_pil_image.
  rewrite (has_shape_shape [h; w; 3] img Himg) by (repeat constructor; lia).
  replace (0 <? h) with true by (symmetry; now apply Nat.ltb_lt).
  replace (0 <? w) with true by (symmetry; now apply Nat.ltb_lt).
  reflexivity.
Qed.

Lemma to_tensor_ok (h w : nat) (img : image8) :
  0 < h -> 0 < w -> has_shape [h; w; 3] img = true ->
  to_tensor img
  = Ok (build3 3 h w (fun k i j => byte_value (F := F) (get3 x00 img i j k))).
Proof.
  intros Hh Hw Himg. unfold to_tensor, permute201.
  rewrite (has_shape_shape [h; w; 3] img Himg) by (repeat constructor; lia).
  cbn [rbind]. now rewrite tmap_build3.
Qed.

(** [Normalize] on a three-channel tensor given by its entries. *)
Lemma normalize_build3 (h w : nat) (g : nat -> nat -> nat -> F) :
  0 < h -> 0 < w ->
  existsb (fun s : F => leb s zero && leb zero s) STD = false ->
  normalize MEAN STD (build3 3 h w g)
  = Ok (build3 3 h w (fun k i j => normalize_value k (g k i j))).
Proof.
  intros Hh Hw Hstd. unfold normalize, ndim.
  rewrite (has_shape_shape [3; h; w] _ (has_shape_build3 3 h w g))
    by (repeat constructor; lia).
  rewrite Hstd. cbn [length Nat.ltb Nat.leb Nat.sub].
  unfold build3. cbn [seq map normalize_at zip_sub_div MEAN STD rbind].
  now rewrite !tmap_plane.
Qed.

(** The result of the transform, entry by entry. *)
Lemma get_test_transform_entries (s h w : nat) (img : image8) :
  resize_contract resize ->
  existsb (fun v : F => leb v zero && leb zero v) STD = false ->
  0 < s -> 0 < h -> 0 < w -> has_shape [h; w; 3] img = true ->
  get_test_transform resize s img
  = Ok (build3 3 224 224
          (fun c i j =>
             normalize_value c
               (byte_value
                  (get3 x00 (center_crop 224 (resize s s img)) i j c)))).
Proof.
  intros Hresize Hstd Hs Hh Hw Himg. unfold get_test_transform.
  rewrite (to_pil_image_ok h w img Hh Hw Himg). cbn [rbind].
  assert (Hres : has_shape [s; s; 3] (resize s s img) = true)
    by (apply (Hresize s h w img); assumption).
  pose proof (has_shape_center_crop s _ Hs Hres) as Hcrop.
  rewrite (to_tensor_ok 224 224 _ ltac:(lia) ltac:(lia) Hcrop). cbn [rbind].
  now rewrite (normalize_build3 224 224 _ ltac:(lia) ltac:(lia) Hstd).
Qed.

End TransformFacts.

Lemma nearest_contract : resize_contract Sample.nearest.
Proof. intros s h w img _ _ _ _. apply has_shape_build3. Qed.

(** C6 -- the transform built by [get_test_transform(image_size)]: the
    picture is resized to image_size x image_size; [center_crop] makes a
    224 x 224 picture of it, which for [image_size >= 224] is the centred
    window of the resized picture; its bytes are divided by 255; the value of
    channel [c] is normalized as [(value - mean[c]) / std[c]] with
    mean = [0.485, 0.456, 0.406] and std = [0.229, 0.224, 0.225]; the result
    is laid out channel-first. *)
Theorem get_test_transform_steps {F : Type} `{Scalar F}
    (resize : nat -> nat -> image8 -> image8)
    (image_size h w : nat) (img : image8) :
  resize_contract resize ->
  existsb (fun v : F => leb v zero && leb zero v) STD = false ->
  0 < image_size -> 0 < h -> 0 < w -> has_shape [h; w; 3] img = true ->
  let resized := resize image_size image_size img in
  let cropped := center_crop 224 resized in
  let top := crop_offset image_size in
  has_shape [image_size; image_size; 3] resized = true
  /\ has_shape [224; 224; 3] cropped = true
  /\ (224 <= image_size ->
      (image_size - 224 <= 2 * top + 1 /\ 2 * top <= image_size - 224 + 1)
      /\ forall i j c, i < 224 -> j < 224 ->
           get3 x00 cropped i j c = get3 x00 resized (top + i) (top + j) c)
  /\ MEAN = [lit 485 1000; lit 456 1000; lit 406 1000]
  /\ STD = [lit 229 1000; lit 224 1000; lit 225 1000]
  /\ exists t : tensor F,
       get_test_transform resize image_size img = Ok t
       /\ has_shape [3; 224; 224] t = true
       /\ forall c i j, c < 3 -> i < 224 -> j < 224 ->
            get3 zero t c i j
            = div (sub (div (of_byte (get3 x00 cropped i j c)) (lit 255 1))
                       (nth c MEAN zero))
                  (nth c STD zero).
Proof.
  intros Hresize Hstd Hs Hh Hw Himg resized cropped top.
  assert (Hres : has_shape [image_size; image_size; 3] resized = true)
    by (apply (Hresize image_size h w img); assumption).
  split; [exact Hres |].
  split; [exact (has_shape_center_crop image_size resized Hs Hres) |].
  split.
  { intros Hlarge. split; [apply round_half_centered |].
    intros i j c Hi Hj.
    exact (get3_center_crop image_size resized i j c Hlarge Hres Hi Hj). }
  split; [reflexivity |]. split; [reflexivity |].
  eexists. split; [| split].
  - apply (get_test_transform_entries resize image_size h w img); assumption.
  - apply has_shape_build3.
  - intros c i j Hc Hi Hj. now rewrite get3_build3 by assumption.
Qed.

Lemma get_test_transform_steps_witness :
  let resized := Sample.nearest 256 256 Sample.picture in
  let cropped := center_crop 224 resized in
  let top := crop_offset 256 in
  has_shape [256; 256; 3] resized = true
  /\ has_shape [224; 224; 3] cropped = true
  /\ (224 <= 256 ->
      (256 - 224 <= 2 * top + 1 /\ 2 * top <= 256 - 224 + 1)
      /\ forall i j c, i < 224 -> j < 224 ->
           get3 x00 cropped i j c = get3 x00 resized (top + i) (top + j) c)
  /\ MEAN (F := B32.t) = [lit 485 1000; lit 456 1000; lit 406 1000]
  /\ STD (F := B32.t) = [lit 229 1000; lit 224 1000; lit 225 1000]
  /\ exists t : tensor B32.t,
       get_test_transform Sample.nearest 256 Sample.picture = Ok t
       /\ has_shape [3; 224; 224] t = true
       /\ forall c i j, c < 3 -> i < 224 -> j < 224 ->
            get3 zero t c i j
            = div (sub (div (of_byte (get3 x00 cropped i j c)) (lit 255 1))
                       (nth c MEAN zero))
                  (nth c STD zero).
Proof.
  apply (get_test_transform_steps Sample.nearest 256 2 2 Sample.picture).
  - exact nearest_contract.
  - vm_compute. reflexivity.
  - lia.
  - lia.
  - lia.
  - reflexivity.
Defined.

(** C5 -- with the driver's resize dimension, the transform turns every
    picture into a 3 x 224 x 224 float32 tensor whose values are finite and,
    in channel [c], lie between [(0 - mean[c]) / std[c]] and
    [(1 - mean[c]) / std[c]]. *)
Theorem get_test_transform_range
    (resize : nat -> nat -> image8 -> image8) (h w : nat) (img : image8) :
  resize_contract resize ->
  0 < h -> 0 < w -> has_shape [h; w; 3] img = true ->
  exists t : tensor B32.t,
    get_test_transform resize IMAGE_RESIZE img = Ok t
    /\ has_shape [3; 224; 224] t = true
    /\ forall c i j, c < 3 -> i < 224 -> j < 224 ->
         finite (get3 zero t c i j) = true
         /\ leb (normalize_value c zero) (get3 zero t c i j) = true
         /\ leb (get3 zero t c i j) (normalize_value c one) = true.
Proof.
  intros Hresize Hh Hw Himg.
  eexists. split; [| split].
  - apply (get_test_transform_entries resize IMAGE_RESIZE h w img);
      try assumption; [exact std_b32_nonzero | unfold IMAGE_RESIZE; lia].
  - apply has_shape_build3.
  - intros c i j Hc Hi Hj. rewrite get3_build3 by assumption.
    pose proof (normalized_byte_range c
                  (get3 x00
                     (center_crop 224 (resize IMAGE_RESIZE IMAGE_RESIZE img))
                     i j c) Hc) as Hrange.
    apply andb_prop in Hrange. destruct Hrange as [Hrange Hhi].
    apply andb_prop in Hrange. destruct Hrange as [Hfin Hlo].
    repeat split; assumption.
Qed.

Lemma get_test_transform_range_witness :
  exists t : tensor B32.t,
    get_test_transform Sample.nearest IMAGE_RESIZE Sample.picture = Ok t
    /\ has_shape [3; 224; 224] t = true
    /\ forall c i j, c < 3 -> i < 224 -> j < 224 ->
         finite (get3 zero t c i j) = true
         /\ leb (normalize_value c zero) (get3 zero t c i j) = true
         /\ leb (get3 zero t c i j) (normalize_value c one) = true.
Proof.
  apply (get_test_transform_range Sample.nearest 2 2 Sample.picture).
  - exact nearest_contract.
  - lia.
  - lia.
  - reflexivity.
Defined.

(** ** [denormalize] and [annotate_image] *)

Section AnnotateFacts.
Context {F : Type} `{Scalar F}.
Variable CLASS_NAMES : list string.
Variable glyphs : string -> nat * nat -> nat -> nat -> bool.

(** On a batch of one image, [zip] yields a single triple: the whole image
    paired with [mean[0]] and [std[0]]. *)
Lemma denormalize_batch1 (img : tensor F) :
  denormalize (TN [img]) MEAN STD
  = Ok (TN [tmap (clamp1 zero one) (tmap scale0 img)]).
Proof. reflexivity. Qed.

Lemma has_shape_batch1 (h w : nat) (x : tensor F) :
  has_shape [1; 3; h; w] x = true ->
  exists img, x = TN [img] /\ has_shape [3; h; w] img = true.
Proof.
  intros Hx. apply has_shape_cons in Hx. destruct Hx as (ts & -> & Hn & Hall).
  destruct ts as [| img [| ? ?]]; try discriminate.
  exists img. split; [reflexivity |]. now inversion Hall.
Qed.

Lemma annotate_image_batch1 (h w : nat) (img : tensor F) (c : Z) :
  0 < h -> 0 < w -> has_shape [3; h; w] img = true ->
  annotate_image CLASS_NAMES glyphs (TN [img]) c
  = (class_name <- py_index CLASS_NAMES c ;;
     Ok (putText glyphs (bgr_pixels h w img) class_name (5, 25) TEXT_COLOR)).
Proof.
  intros Hh Hw Himg. unfold annotate_image.
  rewrite denormalize_batch1. cbn [rbind squeeze0].
  assert (Hs : shape (tmap (clamp1 zero one) (tmap scale0 img)) = [3; h; w]).
  { apply has_shape_shape.
    - now rewrite !has_shape_tmap.
    - repeat constructor; lia. }
  unfold permute120. rewrite Hs. cbn [rbind].
  unfold cvtColor_swap.
  rewrite (has_shape_shape [h; w; 3]);
    [| apply has_shape_build3 | repeat constructor; lia].
  replace (0 <? h) with true by (symmetry; now apply Nat.ltb_lt).
  replace (0 <? w) with true by (symmetry; now apply Nat.ltb_lt).
  cbn [andb orb Nat.eqb rbind].
  now rewrite map_pixels_swap_build3.
Qed.

Lemma has_shape_putText (h w : nat) (img : tensor F) (text : string)
    (org : nat * nat) :
  has_shape [h; w; 3] img = true ->
  has_shape [h; w; 3] (putText glyphs img text org TEXT_COLOR) = true.
Proof.
  intros Himg. unfold putText. apply has_shape_mapi_pixels; [| exact Himg].
  intros y x px Hpx. destruct (glyphs text org y x); [| exact Hpx].
  apply has_shape_cons in Hpx. destruct Hpx as (cs & -> & Hn & _).
  cbn [rows_of]. rewrite Hn. reflexivity.
Qed.

(** The entries of the image that [putText] returns. *)
Lemma get3_putText (h w : nat) (img : tensor F) (text : string)
    (org : nat * nat) (y x k : nat) :
  has_shape [h; w; 3] img = true -> y < h -> x < w ->
  get3 zero (putText glyphs img text org TEXT_COLOR) y x k
  = if glyphs text org y x then nth k TEXT_COLOR zero
    else get3 zero img y x k.
Proof.
  intros Himg Hy Hx. unfold get3, putText.
  rewrite (pixel_mapi_pixels _ zero h w 3) by assumption.
  destruct (glyphs text org y x); [| reflexivity].
  pose proof (has_shape_tnth zero _ _ _ y Himg Hy) as Hrow.
  pose proof (has_shape_tnth zero _ _ _ x Hrow Hx) as Hpx.
  apply has_shape_cons in Hpx. destruct Hpx as (cs & -> & Hn & _).
  cbn [rows_of]. rewrite Hn. cbn [firstn TEXT_COLOR map tnth].
  destruct k as [| [| [| k]]]; try reflexivity.
  unfold TEXT_COLOR. cbn [nth tval]. now destruct k.
Qed.

End AnnotateFacts.

(** C3 -- the denormalization step of [annotate_image] on its batch-of-one,
    channel-first input.  The specification has channel [c] rescaled with
    [std[c]] and [mean[c]].  The loop of [denormalize] iterates over the first
    axis, which here is the batch axis: on the 1 x 3 x 1 x 1 tensor of zeros
    the code returns 0.485 (= [mean[0]]) in all three channels, where the
    per-channel reading gives 0.485, 0.456 and 0.406. *)
Theorem denormalize_batch_ignores_channels :
  let x : tensor B32.t := Sample.batch1 1 1 zero in
  let px (v : B32.t) : tensor B32.t := TN [TN [T0 v]] in
  denormalize x MEAN STD
  = Ok (TN [TN [px (lit 485 1000); px (lit 485 1000); px (lit 485 1000)]])
  /\ denormalize_per_channel x MEAN STD
     = Ok (TN [TN [px (lit 485 1000); px (lit 456 1000); px (lit 406 1000)]])
  /\ denormalize x MEAN STD <> denormalize_per_channel x MEAN STD.
Proof.
  cbv zeta. split; [| split].
  - vm_compute. reflexivity.
  - vm_compute. reflexivity.
  - vm_compute. intros E. discriminate E.
Qed.

Local Open Scope R_scope.

(** On a tensor without a batch axis the loop of [denormalize] walks the
    channels.  Over the reals, for every 3 x h x w tensor [x], denormalizing
    the normalized tensor gives [clamp(x, 0, 1)]; when the values of [x] lie
    in [0, 1] this is [x] itself. *)
Lemma denormalize_normalize_chw (h w : nat) (x : tensor R) :
  (0 < h)%nat -> (0 < w)%nat -> has_shape [3; h; w]%nat x = true ->
  (y <- normalize MEAN STD x ;; denormalize y MEAN STD) = Ok (clamp zero one x)
  /\ (tall in_unit x = true -> clamp zero one x = x).
Proof.
  intros Hh Hw Hx. split.
  - pose proof (has_shape_shape [3; h; w]%nat x Hx) as Hs.
    apply has_shape_cons in Hx. destruct Hx as (ts & -> & Hn & _).
    destruct ts as [| p0 [| p1 [| p2 [| ? ?]]]]; try discriminate.
    unfold normalize, ndim. rewrite Hs by (repeat constructor; lia).
    rewrite std_R_nonzero. cbn -[clamp].
    f_equal. unfold clamp. cbn [tmap map]. do 2 f_equal.
    all: repeat f_equal; rewrite tmap_tmap; apply tmap_ext_id;
      intros v; apply mul_add_sub_div; lra.
  - intros Hunit. unfold clamp.
    apply (tmap_fixes in_unit); [| exact Hunit].
    intros v. apply clamp1_unit_R.
Qed.

Local Close Scope R_scope.

(** C2 -- [denormalize] as the inverse of the normalization step.  On the
    tensors that the script passes to it, which carry a batch axis, it is
    not: the loop pairs the constants with the images of the batch instead
    of the channels.  The 1 x 3 x 1 x 1 tensor of zeros, normalized per
    channel and denormalized, comes back as 0, 0.0188... and 0.0717...,
    where [clamp(x, 0, 1)] is 0 in every channel. *)
Theorem denormalize_normalize_batch_differs :
  let x : tensor B32.t := Sample.batch1 1 1 zero in
  let px (v : B32.t) : tensor B32.t := TN [TN [T0 v]] in
  exists v1 v2 : B32.t,
    (y <- normalize MEAN STD x ;; denormalize y MEAN STD)
    = Ok (TN [TN [px zero; px v1; px v2]])
    /\ leb (lit 18 1000) v1 = true
    /\ leb (lit 71 1000) v2 = true
    /\ clamp zero one x = TN [TN [px zero; px zero; px zero]].
Proof.
  cbv zeta. eexists. eexists. split; [vm_compute; reflexivity |].
  repeat split; vm_compute; reflexivity.
Qed.

(** C4, as stated, fails: the class table is a Python list, and the class id
    -1, which lies outside [0, len), selects its last entry. *)
Lemma annotate_image_accepts_negative_class :
  ~ (forall c : Z,
        (c < 0 \/ Z.of_nat (length Sample.names) <= c)%Z ->
        annotate_image (F := B32.t) Sample.names Sample.strokes
          (Sample.batch1 1 1 zero) c = Raise IndexError).
Proof.
  intros Hall. specialize (Hall (-1)%Z).
  assert (Hc : (-1 < 0 \/ Z.of_nat (length Sample.names) <= -1)%Z) by (left; lia).
  apply Hall in Hc. vm_compute in Hc. discriminate Hc.
Qed.

(** C4 (amended) -- on a 1 x 3 x h x w tensor, [annotate_image] returns an
    h x w x 3 image for every class id [c] with [-len <= c < len], where
    [len] is the length of the class table, and raises [IndexError] for every
    other [c]. *)
Theorem annotate_image_class_range {F : Type} `{Scalar F}
    (CLASS_NAMES : list string)
    (glyphs : string -> nat * nat -> nat -> nat -> bool)
    (h w : nat) (x : tensor F) (c : Z) :
  0 < h -> 0 < w -> has_shape [1; 3; h; w] x = true ->
  ((- Z.of_nat (length CLASS_NAMES) <= c < Z.of_nat (length CLASS_NAMES))%Z ->
   exists r, annotate_image CLASS_NAMES glyphs x c = Ok r
             /\ has_shape [h; w; 3] r = true)
  /\ ((c < - Z.of_nat (length CLASS_NAMES)
       \/ Z.of_nat (length CLASS_NAMES) <= c)%Z ->
      annotate_image CLASS_NAMES glyphs x c = Raise IndexError).
Proof.
  intros Hh Hw Hx.
  apply has_shape_batch1 in Hx. destruct Hx as (img & -> & Himg).
  rewrite (annotate_image_batch1 CLASS_NAMES glyphs h w img c Hh Hw Himg).
  split; intros Hc.
  - rewrite (py_index_in_range CLASS_NAMES c EmptyString Hc). cbn [rbind].
    eexists. split; [reflexivity |].
    apply has_shape_putText. apply has_shape_build3.
  - now rewrite (py_index_out_of_range CLASS_NAMES c Hc).
Qed.

Lemma annotate_image_class_range_witness :
  (exists r, annotate_image (F := B32.t) Sample.names Sample.strokes
               (Sample.batch1 2 2 zero) (-1) = Ok r
             /\ has_shape [2; 2; 3] r = true)
  /\ annotate_image (F := B32.t) Sample.names Sample.strokes
       (Sample.batch1 2 2 zero) 3 = Raise IndexError.
Proof.
  split.
  - apply (annotate_image_class_range Sample.names Sample.strokes 2 2
             (Sample.batch1 2 2 zero) (-1)); [lia | lia | reflexivity |].
    simpl. lia.
  - apply (annotate_image_class_range Sample.names Sample.strokes 2 2
             (Sample.batch1 2 2 zero) 3); [lia | lia | reflexivity |].
    simpl. lia.
Defined.

(** C1, as stated, fails: the label is drawn with the colour (0, 0, 255) into
    the floating-point image, so a pixel under the text holds 255 in its
    third channel.  Here the input is the 1 x 3 x 26 x 12 tensor of zeros,
    the class table begins with the label "lunge" and the class id is 0:
    the stroke of the letter l, drawn from (5, 25), passes through row 18
    of column 8. *)
Lemma annotate_image_text_exceeds_unit :
  exists r,
    annotate_image (F := B32.t) Sample.names_l Sample.strokes
      (Sample.batch1 26 12 zero) 0 = Ok r
    /\ get3 zero r 18 8 2 = lit 255 1
    /\ in_unit (get3 zero r 18 8 2) = false.
Proof.
  eexists. split; [vm_compute; reflexivity |].
  split; vm_compute; reflexivity.
Qed.

(** C1 (amended) -- for a 1 x 3 x h x w float32 tensor without NaN and a class
    id [c] with [0 <= c < len], [annotate_image] returns an image in which
    every pixel that the text of the class name covers holds the colour
    (0, 0, 255), and every value of every other pixel lies in [0, 1]. *)
Theorem annotate_image_values
    (CLASS_NAMES : list string)
    (glyphs : string -> nat * nat -> nat -> nat -> bool)
    (h w : nat) (image : tensor B32.t) (c : Z) :
  0 < h -> 0 < w -> has_shape [1; 3; h; w] image = true ->
  tall (fun v => negb (B32.is_nan v)) image = true ->
  (0 <= c < Z.of_nat (length CLASS_NAMES))%Z ->
  exists r,
    annotate_image CLASS_NAMES glyphs image c = Ok r
    /\ forall y x k, y < h -> x < w -> k < 3 ->
         if glyphs (nth (Z.to_nat c) CLASS_NAMES EmptyString) (5, 25) y x
         then get3 zero r y x k = nth k TEXT_COLOR zero
         else in_unit (get3 zero r y x k) = true.
Proof.
  intros Hh Hw Himage Hnan Hc.
  apply has_shape_batch1 in Himage. destruct Himage as (img & -> & Himg).
  rewrite (annotate_image_batch1 CLASS_NAMES glyphs h w img c Hh Hw Himg).
  rewrite (py_index_in_range CLASS_NAMES c EmptyString) by lia.
  replace (c <? 0)%Z with false by (symmetry; apply Z.ltb_ge; lia).
  cbn [rbind]. eexists. split; [reflexivity |].
  intros y x k Hy Hx Hk.
  rewrite (get3_putText glyphs h w) by (assumption || apply has_shape_build3).
  destruct (glyphs _ (5, 25) y x); [reflexivity |].
  unfold bgr_pixels. rewrite get3_build3 by assumption.
  assert (Hk' : 2 - k < 3) by lia.
  assert (Hscaled : has_shape [3; h; w] (tmap scale0 img) = true)
    by now rewrite has_shape_tmap.
  rewrite (get3_tmap (clamp1 zero one) zero zero 3 h w _ (2 - k) y x
             Hscaled Hk' Hy Hx).
  rewrite (get3_tmap scale0 zero zero 3 h w img (2 - k) y x Himg Hk' Hy Hx).
  apply clamp1_in_unit. apply scale0_not_nan.
  cbn [tall forallb] in Hnan. rewrite andb_true_r in Hnan.
  apply negb_true_iff.
  exact (tall_get3 (fun v => negb (B32.is_nan v)) zero 3 h w img (2 - k) y x
           Himg Hk' Hy Hx Hnan).
Qed.

Lemma annotate_image_values_witness :
  exists r,
    annotate_image (F := B32.t) Sample.names Sample.strokes
      (Sample.batch1 11 6 zero) 1 = Ok r
    /\ forall y x k, y < 11 -> x < 6 -> k < 3 ->
         if Sample.strokes (nth (Z.to_nat 1) Sample.names EmptyString) (5, 25) y x
         then get3 zero r y x k = nth k TEXT_COLOR zero
         else in_unit (get3 zero r y x k) = true.
Proof.
  apply (annotate_image_values Sample.names Sample.strokes 11 6
           (Sample.batch1 11 6 zero) 1);
    [lia | lia | reflexivity | reflexivity | simpl; lia].
Defined.

(** ** [inference] *)

Section InferenceFacts.
Context {F : Type} `{Scalar F} `{Exponential F}.
Variables W G : Type.
Variable forward : device -> W -> bool -> G -> tensor F -> res (list (list F)).
Variable CLASS_NAMES : list string.
Variable glyphs : string -> nat * nat -> nat -> nat -> bool.

(** The flattened index into a batch of one row is the index into the row. *)
Lemma np_argmax_batch1 (row : list F) : np_argmax [row] = argmax_list row.
Proof. unfold np_argmax. cbn [concat]. now rewrite app_nil_r. Qed.

Lemma predict_batch1 (model : net W) (testloader : tensor F)
    (DEVICE : device) (g : G) (scores : list F) :
  forward DEVICE (weights model) false g testloader = Ok [scores] ->
  predict forward model testloader DEVICE g
  = (eval model, argmax_list (softmax_row scores)).
Proof.
  intros Hfw. unfold predict. cbn [eval weights training].
  rewrite Hfw. cbn [rbind softmax_dim1 map].
  now rewrite np_argmax_batch1.
Qed.

End InferenceFacts.

(** ** Row maximum and arg-max of a row of scores *)

Section ArgmaxFacts.
Context {F : Type} `{Scalar F} `{!OrderLaws F}.

(** *** The row maximum *)

Lemma max2_cases (a b : F) :
  leb a a = true -> leb b b = true ->
  (max2 a b = a \/ max2 a b = b)
  /\ leb a (max2 a b) = true /\ leb b (max2 a b) = true.
Proof.
  intros Ha Hb. unfold max2, is_nan_value. rewrite Ha, Hb. cbn [negb].
  destruct (leb b a) eqn:E.
  - auto.
  - destruct (leb_total a b Ha Hb) as [Hab | Hba]; [auto | congruence].
Qed.

Lemma fold_max2_greatest (l : list F) :
  forall acc : F,
    leb acc acc = true -> forallb (fun x => leb x x) l = true ->
    (fold_left max2 l acc = acc \/ In (fold_left max2 l acc) l)
    /\ leb acc (fold_left max2 l acc) = true
    /\ forall x, In x l -> leb x (fold_left max2 l acc) = true.
Proof.
  induction l as [| y l IH]; intros acc Hacc Hl; cbn [fold_left].
  - split; [now left | split; [exact Hacc | intros x []]].
  - cbn [forallb] in Hl. apply andb_prop in Hl. destruct Hl as [Hy Hl].
    destruct (max2_cases acc y Hacc Hy) as (Hsel & Hle1 & Hle2).
    assert (Hm : leb (max2 acc y) (max2 acc y) = true)
      by (destruct Hsel as [-> | ->]; assumption).
    destruct (IH (max2 acc y) Hm Hl) as (Hin & Hge & Hall).
    split; [| split].
    + destruct Hin as [Heq | Hin].
      * rewrite Heq. destruct Hsel as [-> | ->]; [now left | right; now left].
      * right; now right.
    + exact (leb_trans _ _ _ Hle1 Hge).
    + intros x [<- | Hx]; [exact (leb_trans _ _ _ Hle2 Hge) | now apply Hall].
Qed.

(** The value that [softmax_row] subtracts is a largest score of the row. *)
Lemma row_max_greatest (l : list F) :
  0 < length l -> forallb (fun x => leb x x) l = true ->
  greatest (row_max l) l.
Proof.
  destruct l as [| x l]; cbn [length]; [lia |].
  intros _ Hl. cbn [forallb] in Hl. apply andb_prop in Hl.
  destruct Hl as [Hx Hl]. cbn [row_max].
  destruct (fold_max2_greatest l x Hx Hl) as (Hin & Hge & Hall).
  split.
  - destruct Hin as [-> | Hin]; [now left | now right].
  - intros y [<- | Hy]; [exact Hge | now apply Hall].
Qed.

(** *** The arg-max *)

Lemma argmax_from_first_max (l : list F) :
  forall (pre : list F) (best : F) (besti i : nat),
    i = length pre ->
    forallb (fun x => leb x x) l = true ->
    leb best best = true ->
    besti < i -> nth besti pre zero = best ->
    (forall j, j < i -> leb (nth j pre zero) best = true) ->
    (forall j, j < besti -> leb best (nth j pre zero) = false) ->
    first_max (pre ++ l) (argmax_from best besti i l).
Proof.
  induction l as [| x l IH];
    intros pre best besti i Hi Hl Hbest Hlt Hnth Hall Hfirst;
    cbn [argmax_from].
  - rewrite app_nil_r. subst i. unfold first_max. rewrite Hnth.
    repeat split; assumption.
  - cbn [forallb] in Hl. apply andb_prop in Hl. destruct Hl as [Hx Hl].
    replace (pre ++ x :: l) with ((pre ++ [x]) ++ l)
      by (rewrite <- app_assoc; reflexivity).
    assert (Hlen : S i = length (pre ++ [x]))
      by (rewrite length_app; cbn [length]; lia).
    destruct (leb x best) eqn:E.
    + apply IH; try assumption; try lia.
      * rewrite app_nth1 by lia. exact Hnth.
      * intros j Hj. destruct (Nat.eq_dec j i) as [-> | Hne].
        -- rewrite Hi, nth_middle. exact E.
        -- rewrite app_nth1 by lia. apply Hall. lia.
      * intros j Hj. rewrite app_nth1 by lia. now apply Hfirst.
    + unfold is_nan_value. rewrite Hx. cbn [negb].
      assert (Hbx : leb best x = true).
      { destruct (leb_total best x Hbest Hx) as [Hbx | Hxb];
          [exact Hbx | congruence]. }
      apply IH; try assumption; try lia.
      * rewrite Hi. apply nth_middle.
      * intros j Hj. destruct (Nat.eq_dec j i) as [-> | Hne].
        -- rewrite Hi, nth_middle. exact Hx.
        -- rewrite app_nth1 by lia.
           apply (leb_trans _ best); [apply Hall; lia | exact Hbx].
      * intros j Hj. rewrite app_nth1 by lia.
        destruct (leb x (nth j pre zero)) eqn:Ej; [| reflexivity].
        rewrite <- E. symmetry.
        apply (leb_trans _ (nth j pre zero)); [exact Ej | now apply Hall].
Qed.

(** [np.argmax] of a row without NaN is the index of its first largest
    entry. *)
Lemma argmax_list_first_max (l : list F) (k : nat) :
  forallb (fun x => leb x x) l = true ->
  argmax_list l = Ok k -> first_max l k.
Proof.
  destruct l as [| x l]; cbn [argmax_list]; [discriminate |].
  intros Hl Hk. cbn [forallb] in Hl. apply andb_prop in Hl.
  destruct Hl as [Hx Hl]. unfold is_nan_value in Hk. rewrite Hx in Hk.
  cbn [negb] in Hk. injection Hk as <-.
  apply (argmax_from_first_max l [x] x 0 1); try assumption;
    try reflexivity; try lia.
  - intros j Hj. replace j with 0 by lia. exact Hx.
Qed.

(** The first largest entry is unique. *)
Lemma first_max_unique (l : list F) (j k : nat) :
  first_max l j -> first_max l k -> j = k.
Proof.
  intros (Hj & Hjall & Hjfirst) (Hk & Hkall & Hkfirst).
  destruct (Nat.lt_trichotomy j k) as [Hlt | [Heq | Hgt]]; [| exact Heq |].
  - specialize (Hkfirst j Hlt). specialize (Hjall k Hk). congruence.
  - specialize (Hjfirst k Hgt). specialize (Hkall j Hj). congruence.
Qed.

(** A map that keeps the order of the entries keeps the arg-max. *)
Lemma argmax_from_map (f : F -> F) (l : list F) :
  forall (best : F) (besti i : nat),
    (forall a b, In a (best :: l) -> In b (best :: l) ->
                 leb (f a) (f b) = leb a b) ->
    argmax_from (f best) besti i (map f l) = argmax_from best besti i l.
Proof.
  induction l as [| x l IH]; intros best besti i Hf; cbn [map argmax_from].
  - reflexivity.
  - unfold is_nan_value.
    rewrite (Hf x best), (Hf x x) by (cbn [In]; auto).
    destruct (leb x best).
    + apply IH. intros a b Ha Hb. apply Hf; cbn [In] in *; tauto.
    + destruct (negb (leb x x)); [reflexivity |].
      apply IH. intros a b Ha Hb. apply Hf; cbn [In] in *; tauto.
Qed.

Lemma argmax_list_map (f : F -> F) (l : list F) :
  (forall a b, In a l -> In b l -> leb (f a) (f b) = leb a b) ->
  argmax_list (map f l) = argmax_list l.
Proof.
  intros Hf. destruct l as [| x l]; cbn [map argmax_list]; [reflexivity |].
  unfold is_nan_value. rewrite (Hf x x) by (cbn [In]; auto).
  now rewrite argmax_from_map.
Qed.

Lemma argmax_list_nonempty (l : list F) :
  0 < length l -> exists k, argmax_list l = Ok k.
Proof.
  destruct l as [| x l]; cbn [length argmax_list]; [lia |].
  intros _. eexists. reflexivity.
Qed.

End ArgmaxFacts.

Section NanFacts.
Context {F : Type} `{Scalar F} `{!OrderLaws F}.

Lemma argmax_from_first_nan (l : list F) :
  forall (best : F) (besti i : nat),
    leb best best = true ->
    existsb is_nan_value l = true ->
    exists n,
      argmax_from best besti i l = i + n
      /\ n < length l
      /\ is_nan_value (nth n l zero) = true
      /\ forall j, j < n -> is_nan_value (nth j l zero) = false.
Proof.
  induction l as [| x l IH]; intros best besti i Hbest Hl;
    cbn [existsb] in Hl; [discriminate |].
  cbn [argmax_from].
  destruct (is_nan_value x) eqn:Ex.
  - assert (E : leb x best = false).
    { destruct (leb x best) eqn:E; [| reflexivity].
      apply leb_refl_l in E. unfold is_nan_value in Ex.
      rewrite E in Ex. discriminate. }
    rewrite E. exists 0. cbn [nth length].
    repeat split; try lia; try assumption.
  - cbn [orb] in Hl.
    assert (Hx : leb x x = true).
    { unfold is_nan_value in Ex. now destruct (leb x x). }
    assert (Hstep : forall b bi,
               leb b b = true ->
               exists n,
                 argmax_from b bi (S i) l = i + n
                 /\ n < length (x :: l)
                 /\ is_nan_value (nth n (x :: l) zero) = true
                 /\ forall j, j < n ->
                      is_nan_value (nth j (x :: l) zero) = false).
    { intros b bi Hb.
      destruct (IH b bi (S i) Hb Hl) as (n & Hn & Hlt & Hnan & Hbefore).
      exists (S n). cbn [nth length].
      repeat split; try lia; try assumption.
      intros [| j] Hj; [exact Ex | apply Hbefore; lia]. }
    destruct (leb x best); [now apply Hstep | now apply Hstep].
Qed.

(** [np.argmax] of a row with a NaN is the index of its first NaN. *)
Lemma argmax_list_first_nan (l : list F) (k : nat) :
  existsb is_nan_value l = true ->
  argmax_list l = Ok k -> first_nan l k.
Proof.
  destruct l as [| x l]; cbn [argmax_list]; [discriminate |].
  intros Hl Hk. cbn [existsb] in Hl. injection Hk as <-.
  destruct (is_nan_value x) eqn:Ex.
  - unfold first_nan. cbn [nth length]. repeat split; try lia; assumption.
  - cbn [orb] in Hl.
    assert (Hx : leb x x = true).
    { unfold is_nan_value in Ex. now destruct (leb x x). }
    destruct (argmax_from_first_nan l x 0 1 Hx Hl)
      as (n & -> & Hlt & Hnan & Hbefore).
    unfold first_nan. cbn [nth length Nat.add].
    repeat split; try lia; try assumption.
    intros [| j] Hj; [exact Ex | apply Hbefore; lia].
Qed.

Lemma existsb_nan_false (l : list F) :
  existsb is_nan_value l = false -> forallb (fun x => leb x x) l = true.
Proof.
  induction l as [| x l IH]; cbn [existsb forallb]; [reflexivity |].
  intros Hl. apply orb_false_elim in Hl. destruct Hl as [Hx Hl].
  unfold is_nan_value in Hx. apply negb_false_iff in Hx.
  rewrite Hx. now apply IH.
Qed.

End NanFacts.


(** C7 -- when the network returns a non-empty row of scores for a batch of
    one, [inference] takes the softmax of that row along the class axis:
    with [m] a largest score (when no score is NaN), the probability of a
    score [x] is [exp(x - m)] over the sum of the [exp(y - m)] of all scores
    [y] of the row.  The class id [k] is the arg-max of these probabilities:
    the index of the first largest one, or of the first NaN when there is
    one.  The result is what [annotate_image] returns for the input tensor
    (the one handed to the network) and [k]; the module is left in
    evaluation mode. *)
Theorem inference_softmax_argmax {F : Type} `{Scalar F} `{Exponential F}
    `{!OrderLaws F}
    (W G : Type)
    (forward : device -> W -> bool -> G -> tensor F -> res (list (list F)))
    (CLASS_NAMES : list string)
    (glyphs : string -> nat * nat -> nat -> nat -> bool)
    (model : net W) (testloader : tensor F) (DEVICE : device) (g : G)
    (scores : list F) :
  forward DEVICE (weights model) false g testloader = Ok [scores] ->
  0 < length scores ->
  exists (m : F) (probs : list F) (k : nat),
    (forallb (fun x => leb x x) scores = true -> greatest m scores)
    /\ probs
       = map (fun x =>
                div (expF (sub x m))
                    (fold_right add zero
                       (map (fun y => expF (sub y m)) scores)))
             scores
    /\ softmax_dim1 [scores] = [probs]
    /\ (if existsb is_nan_value probs then first_nan probs k
        else first_max probs k)
    /\ inference forward CLASS_NAMES glyphs model testloader DEVICE g
       = ({| weights := weights model; training := false |},
          annotate_image CLASS_NAMES glyphs testloader (Z.of_nat k)).
Proof.
  intros Hfw Hlen.
  destruct (argmax_list_nonempty (softmax_row scores)) as [k Hk].
  { unfold softmax_row. now rewrite length_map. }
  exists (row_max scores), (softmax_row scores), k.
  split; [| split; [| split; [| split]]].
  - intros Hnn. now apply row_max_greatest.
  - reflexivity.
  - reflexivity.
  - destruct (existsb is_nan_value (softmax_row scores)) eqn:E.
    + now apply argmax_list_first_nan.
    + apply argmax_list_first_max; [| exact Hk].
      now apply existsb_nan_false.
  - unfold inference.
    rewrite (predict_batch1 W G forward model testloader DEVICE g scores Hfw).
    rewrite Hk. reflexivity.
Qed.

Lemma inference_softmax_argmax_witness :
  exists (m : B32.t) (probs : list B32.t) (k : nat),
    (forallb (fun x : B32.t => leb x x) [lit 1 1; lit 2 1; lit 0 1] = true ->
     greatest m [lit 1 1; lit 2 1; lit 0 1])
    /\ probs
       = map (fun x =>
                div (expF (sub x m))
                    (fold_right add zero
                       (map (fun y => expF (sub y m))
                            [lit 1 1; lit 2 1; lit 0 1])))
             [lit 1 1; lit 2 1; lit 0 1]
    /\ softmax_dim1 [[lit 1 1; lit 2 1; lit 0 1]] = [probs]
    /\ (if existsb is_nan_value probs then first_nan probs k
        else first_max probs k)
    /\ inference Sample2.forward32 Sample.names Sample.strokes Sample2.model32
         (Sample.batch1 1 1 zero) Cpu tt
       = ({| weights := weights Sample2.model32; training := false |},
          annotate_image Sample.names Sample.strokes (Sample.batch1 1 1 zero)
            (Z.of_nat k)).
Proof.
  apply (inference_softmax_argmax (list B32.t) unit Sample2.forward32
           Sample.names Sample.strokes Sample2.model32
           (Sample.batch1 1 1 zero) Cpu tt [lit 1 1; lit 2 1; lit 0 1]).
  - reflexivity.
  - simpl. lia.
Defined.


Local Open Scope R_scope.

Lemma sum_pos_nonempty (g : R -> R) (l : list R) :
  (forall x, 0 < g x) -> (0 < length l)%nat ->
  0 < fold_right Rplus 0 (map g l).
Proof.
  intros Hg. destruct l as [| x l]; cbn [length]; [lia |]. intros _.
  cbn [map fold_right].
  assert (Hl : 0 <= fold_right Rplus 0 (map g l)).
  { induction l as [| y l IH]; cbn [map fold_right]; [lra |].
    pose proof (Hg y). lra. }
  pose proof (Hg x). lra.
Qed.

(** Over the reals the softmax of a non-empty row has a positive
    denominator. *)
Lemma softmax_sum_pos (scores : list R) :
  (0 < length scores)%nat ->
  0 < fold_right add zero
        (map (fun y => expF (sub y (row_max scores))) scores).
Proof.
  intros Hlen. rewrite zero_R.
  apply (sum_pos_nonempty (fun y => exp (y - row_max scores))); [| exact Hlen].
  intros y. apply exp_pos.
Qed.

(** [x |-> exp (x - m) / s] keeps the order when [s] is positive. *)
Lemma leb_exp_div (s m a b : R) :
  0 < s -> leb (exp (a - m) / s) (exp (b - m) / s) = leb a b.
Proof.
  intros Hs. cbn [leb R_scalar].
  assert (Hinv : 0 < / s) by now apply Rinv_0_lt_compat.
  destruct (Rle_dec a b) as [Hab | Hab];
    destruct (Rle_dec (exp (a - m) / s) (exp (b - m) / s)) as [He | He];
    try reflexivity; exfalso.
  - apply He. unfold Rdiv. apply Rmult_le_compat_r; [lra |].
    destruct Hab as [Hlt | ->]; [| lra].
    left. apply exp_increasing. lra.
  - apply Hab. unfold Rdiv in He. apply Rmult_le_reg_r in He; [| exact Hinv].
    destruct He as [Hlt | Heq].
    + apply exp_lt_inv in Hlt. lra.
    + apply exp_inv in Heq. lra.
Qed.

Lemma softmax_value_order_R (scores : list R) (a b : R) :
  In a scores ->
  leb (softmax_value scores a) (softmax_value scores b) = leb a b.
Proof.
  intros Ha. unfold softmax_value.
  apply (leb_exp_div _ (row_max scores) a b).
  apply softmax_sum_pos. destruct scores; [destruct Ha | simpl; lia].
Qed.

Local Close Scope R_scope.




(** ** The driver *)

(** C8 -- when no entry of the input directory matches [*.jpg] and the
    checkpoint loads, a run creates the output directory, does nothing else
    (no call of [inference], no file written) and ends without an error. *)
Theorem run_without_pictures {F : Type} `{Scalar F} `{Exponential F}
    (W G : Type)
    (forward : device -> W -> bool -> G -> tensor F -> res (list (list F)))
    (CLASS_NAMES : list string)
    (glyphs : string -> nat * nat -> nat -> nat -> bool)
    (resize : nat -> nat -> image8 -> image8)
    (checkpoint : Type)
    (torch_load : string -> res checkpoint)
    (model_state_dict : checkpoint -> res W)
    (build_model : bool -> nat -> net W)
    (load_state_dict : net W -> W -> res (net W))
    (listdir : string -> list string)
    (imread : string -> option image8)
    (a : args) (DEVICE : device) (gs : nat -> G)
    (ck : checkpoint) (w : W) (m : net W) :
  filter matches_jpg (listdir (input a)) = [] ->
  torch_load (weights_path a) = Ok ck ->
  model_state_dict ck = Ok w ->
  load_state_dict (build_model false (length CLASS_NAMES)) w = Ok m ->
  let '(trace, outcome) :=
    run forward CLASS_NAMES glyphs resize torch_load model_state_dict
        build_model load_state_dict listdir imread a DEVICE gs in
  trace = [Makedirs INFER_RESULT_PATH]
  /\ filter is_inference trace = []
  /\ filter is_imwrite trace = []
  /\ outcome = Ok tt.
Proof.
  intros Hglob Hload Hdict Hstate.
  unfold run, main, io_bind, emit, lift, glob_jpg.
  rewrite Hload, Hdict, Hstate, Hglob. cbn.
  repeat split; reflexivity.
Qed.

Lemma run_without_pictures_witness :
  let '(trace, outcome) :=
    run (F := R) Sample.toy_forward Sample.names Sample.strokes Sample.nearest
        Sample.toy_load Sample.toy_state_dict Sample.toy_build
        Sample.toy_load_state_dict Sample.toy_listdir Sample.toy_imread
        Sample.toy_args Cpu (fun _ => 0%R) in
  trace = [Makedirs INFER_RESULT_PATH]
  /\ filter is_inference trace = []
  /\ filter is_imwrite trace = []
  /\ outcome = Ok tt.
Proof.
  apply (run_without_pictures (list R) R Sample.toy_forward Sample.names
           Sample.strokes Sample.nearest (list R)
           Sample.toy_load Sample.toy_state_dict Sample.toy_build
           Sample.toy_load_state_dict Sample.toy_listdir Sample.toy_imread
           Sample.toy_args Cpu (fun _ => 0%R)
           [1%R; 2%R] [1%R; 2%R] {| weights := [1%R; 2%R]; training := true |});
    reflexivity.
Defined.

(** The trace of a run without pictures does not depend on the checkpoint:
    a checkpoint that fails to load ends the run after the directory was
    created, with the error of the loading step. *)
Lemma run_without_pictures_trace {F : Type} `{Scalar F} `{Exponential F}
    (W G : Type)
    (forward : device -> W -> bool -> G -> tensor F -> res (list (list F)))
    (CLASS_NAMES : list string)
    (glyphs : string -> nat * nat -> nat -> nat -> bool)
    (resize : nat -> nat -> image8 -> image8)
    (checkpoint : Type)
    (torch_load : string -> res checkpoint)
    (model_state_dict : checkpoint -> res W)
    (build_model : bool -> nat -> net W)
    (load_state_dict : net W -> W -> res (net W))
    (listdir : string -> list string)
    (imread : string -> option image8)
    (a : args) (DEVICE : device) (gs : nat -> G) :
  filter matches_jpg (listdir (input a)) = [] ->
  fst (run forward CLASS_NAMES glyphs resize torch_load model_state_dict
           build_model load_state_dict listdir imread a DEVICE gs)
  = [Makedirs INFER_RESULT_PATH].
Proof.
  intros Hglob. unfold run, main, io_bind, emit, lift, glob_jpg.
  rewrite Hglob. cbn.
  destruct (torch_load (weights_path a)) as [ck |]; [| reflexivity].
  destruct (model_state_dict ck) as [w |]; [| reflexivity].
  destruct (load_state_dict _ w); reflexivity.
Qed.

(** * Further properties of the script *)

(** ** [denormalize] on tensors of any shape *)

Section DenormalizeFacts.
Context {F : Type} `{Scalar F}.

Lemma length_zip_mul_add (ts : list (tensor F)) :
  forall mean std : list F, length (zip_mul_add ts mean std) = length ts.
Proof.
  induction ts as [| t ts IH]; intros [| m mean] [| s std]; simpl;
    try reflexivity.
  now rewrite IH.
Qed.

(** Child [k] of the tensor after the loop: rescaled when all of [x], [mean]
    and [std] reach that far, untouched otherwise. *)
Lemma nth_zip_mul_add (d : tensor F) (ts : list (tensor F)) :
  forall (mean std : list F) (k : nat),
    k < length ts ->
    nth k (zip_mul_add ts mean std) d
    = if (k <? length mean) && (k <? length std)
      then tmap (fun v => add (mul v (nth k std zero)) (nth k mean zero))
                (nth k ts d)
      else nth k ts d.
Proof.
  induction ts as [| t ts IH]; intros mean std k Hk; [simpl in Hk; lia |].
  destruct mean as [| m mean]; [now destruct k |].
  destruct std as [| s std];
    [cbn [zip_mul_add length Nat.ltb Nat.leb]; now rewrite andb_false_r |].
  destruct k as [| k]; [reflexivity |].
  cbn [zip_mul_add nth length]. simpl in Hk.
  rewrite (IH mean std k) by lia. reflexivity.
Qed.

Lemma Forall_zip_mul_add (Q : F -> Prop) (P : tensor F -> Prop)
    (ts : list (tensor F)) :
  (forall m s t, Q m -> Q s -> P t -> P (tmap (fun v => add (mul v s) m) t)) ->
  Forall P ts ->
  forall mean std : list F,
    Forall Q mean -> Forall Q std -> Forall P (zip_mul_add ts mean std).
Proof.
  intros Hscale Hts. induction Hts as [| t ts Ht Hts IH];
    intros [| m mean] [| s std] Hmean Hstd; simpl;
    try (constructor; assumption).
  inversion Hmean; inversion Hstd; subst.
  constructor; [now apply Hscale | now apply IH].
Qed.

End DenormalizeFacts.

(** X1 -- [denormalize] with its default constants walks the first axis of
    its argument, whatever that axis is: it returns a tensor with as many
    children, child [k] being the clamped [value * std[k] + mean[k]] for
    k = 0, 1, 2, and any further child being clamped only. *)
Theorem denormalize_children {F : Type} `{Scalar F} (ts : list (tensor F)) :
  exists rs : list (tensor F),
    denormalize (TN ts) MEAN STD = Ok (TN rs)
    /\ length rs = length ts
    /\ forall k, k < length ts ->
         nth k rs (T0 zero)
         = clamp zero one
             (if k <? 3 then tmap (scale_value k) (nth k ts (T0 zero))
              else nth k ts (T0 zero)).
Proof.
  exists (map (tmap (clamp1 zero one)) (zip_mul_add ts MEAN STD)).
  split; [reflexivity |]. split.
  - now rewrite length_map, length_zip_mul_add.
  - intros k Hk. unfold clamp.
    rewrite (nth_indep _ (T0 zero) (tmap (clamp1 zero one) (T0 zero)))
      by now rewrite length_map, length_zip_mul_add.
    rewrite (map_nth (tmap (clamp1 zero one))).
    rewrite (nth_zip_mul_add (T0 zero) ts MEAN STD k Hk).
    cbn [length MEAN STD]. rewrite andb_diag. reflexivity.
Qed.

Lemma denormalize_has_shape {F : Type} `{Scalar F}
    (n : nat) (s : list nat) (x : tensor F) :
  has_shape (n :: s) x = true ->
  exists r, denormalize x MEAN STD = Ok r /\ has_shape (n :: s) r = true.
Proof.
  intros Hx. apply has_shape_cons in Hx. destruct Hx as (ts & -> & Hn & Hts).
  eexists. split; [reflexivity |].
  unfold clamp. rewrite has_shape_tmap.
  apply has_shape_cons. eexists. split; [reflexivity |]. split.
  - now rewrite length_zip_mul_add.
  - apply (Forall_zip_mul_add (fun _ => True)); [| exact Hts | |];
      [| unfold MEAN | unfold STD]; [| repeat constructor ..].
    intros m s0 t _ _ Ht. now rewrite has_shape_tmap.
Qed.

(** X2 -- [denormalize] keeps the shape of a tensor with at least one
    axis. *)
Theorem denormalize_shape {F : Type} `{Scalar F}
    (n : nat) (s : list nat) (x : tensor F) :
  has_shape (n :: s) x = true ->
  exists r, denormalize x MEAN STD = Ok r /\ has_shape (n :: s) r = true.
Proof. exact (denormalize_has_shape n s x). Qed.

Lemma denormalize_shape_witness :
  exists r, denormalize (Sample.batch1 2 2 (zero (F := B32.t))) MEAN STD = Ok r
            /\ has_shape [1; 3; 2; 2] r = true.
Proof.
  apply (denormalize_shape 1 [3; 2; 2] (Sample.batch1 2 2 zero)). reflexivity.
Defined.

Section TallFacts.
Context {F : Type}.

Lemma tall_tmap (p q : F -> bool) (f : F -> F) (x : tensor F) :
  (forall v, q v = true -> p (f v) = true) ->
  tall q x = true -> tall p (tmap f x) = true.
Proof.
  intros Hf.
  induction x as [v | ts IH] using tensor_induction; cbn [tall tmap]; intros Hx.
  - now apply Hf.
  - rewrite forallb_map_compose. apply forallb_forall. intros t Ht.
    rewrite forallb_forall in Hx. rewrite Forall_forall in IH.
    apply IH; [exact Ht | now apply Hx].
Qed.

End TallFacts.

(** A finite, non-zero binary32 number. *)
Lemma mul_add_not_nan (m s v : B32.t) :
  (exists b p e, m = S754_finite b p e) ->
  (exists b p e, s = S754_finite b p e) ->
  B32.is_nan v = false -> B32.is_nan (add (mul v s) m) = false.
Proof.
  intros (bm & pm & em & ->) (bs & ps & es & ->) Hv.
  apply SFadd_not_nan. now apply SFmul_not_nan.
Qed.

(** X3 -- in binary32, [denormalize] with its default constants turns every
    tensor without NaN (and with at least one axis) into a tensor whose
    values all lie in [0, 1]. *)
Theorem denormalize_in_unit (ts : list (tensor B32.t)) :
  tall (fun v => negb (B32.is_nan v)) (TN ts) = true ->
  exists r, denormalize (TN ts) MEAN STD = Ok r /\ tall in_unit r = true.
Proof.
  intros Hnan. eexists. split; [reflexivity |].
  unfold clamp.
  apply (tall_tmap in_unit (fun v => negb (B32.is_nan v))).
  - intros v Hv. apply clamp1_in_unit. now apply negb_true_iff.
  - cbn [tall] in Hnan |- *. apply forallb_forall. intros t Ht.
    assert (Hall : Forall (fun t => tall (fun v => negb (B32.is_nan v)) t = true)
                          (zip_mul_add ts MEAN STD)).
    { apply (Forall_zip_mul_add (fun c => exists b p e, c = S754_finite b p e)).
      - intros m s t0 Hm Hs Ht0.
        apply (tall_tmap _ (fun v => negb (B32.is_nan v))); [| exact Ht0].
        intros v Hv. apply negb_true_iff. apply mul_add_not_nan; try assumption.
        now apply negb_true_iff.
      - apply Forall_forall. now apply forallb_forall.
      - repeat constructor; vm_compute; eauto.
      - repeat constructor; vm_compute; eauto. }
    rewrite Forall_forall in Hall. now apply Hall.
Qed.

Lemma denormalize_in_unit_witness :
  exists r,
    denormalize (TN [Sample.plane 1 2 (lit (F := B32.t) 5 1);
                     Sample.plane 1 2 (lit (F := B32.t) (-7) 2)]) MEAN STD = Ok r
    /\ tall in_unit r = true.
Proof.
  apply (denormalize_in_unit
           [Sample.plane 1 2 (lit (F := B32.t) 5 1);
            Sample.plane 1 2 (lit (F := B32.t) (-7) 2)]).
  vm_compute. reflexivity.
Defined.

(** ** [annotate_image] on other inputs *)

Section AnnotateMore.
Context {F : Type} `{Scalar F}.
Variable CLASS_NAMES : list string.
Variable glyphs : string -> nat * nat -> nat -> nat -> bool.

(** What follows the denormalization step, for a step that left a
    3 x h x w tensor [d] behind. *)
Lemma annotate_image_after (image d0 d : tensor F) (h w : nat) (c : Z) :
  0 < h -> 0 < w ->
  denormalize image MEAN STD = Ok d0 -> squeeze0 d0 = d ->
  has_shape [3; h; w] d = true ->
  annotate_image CLASS_NAMES glyphs image c
  = (class_name <- py_index CLASS_NAMES c ;;
     Ok (putText glyphs
           (build3 h w 3 (fun i j k => get3 zero d (2 - k) i j))
           class_name (5, 25) TEXT_COLOR)).
Proof.
  intros Hh Hw Hden Hsq Hd. unfold annotate_image.
  rewrite Hden. cbn [rbind]. rewrite Hsq.
  unfold permute120.
  rewrite (has_shape_shape [3; h; w] d Hd) by (repeat constructor; lia).
  cbn [rbind]. unfold cvtColor_swap.
  rewrite (has_shape_shape [h; w; 3]);
    [| apply has_shape_build3 | repeat constructor; lia].
  replace (0 <? h) with true by (symmetry; now apply Nat.ltb_lt).
  replace (0 <? w) with true by (symmetry; now apply Nat.ltb_lt).
  cbn [andb orb Nat.eqb rbind].
  now rewrite map_pixels_swap_build3.
Qed.

(** A class id and the same id counted from the end of the table give the
    same name. *)
Lemma py_index_from_end (c : Z) :
  (0 <= c < Z.of_nat (length CLASS_NAMES))%Z ->
  py_index CLASS_NAMES (c - Z.of_nat (length CLASS_NAMES))
  = py_index CLASS_NAMES c.
Proof.
  intros Hc.
  rewrite (py_index_in_range CLASS_NAMES c EmptyString) by lia.
  rewrite (py_index_in_range CLASS_NAMES _ EmptyString) by lia.
  replace (c <? 0)%Z with false by (symmetry; apply Z.ltb_ge; lia).
  replace (c - Z.of_nat (length CLASS_NAMES) <? 0)%Z with true
    by (symmetry; apply Z.ltb_lt; lia).
  do 2 f_equal. lia.
Qed.

End AnnotateMore.

Lemma get2_tmap {F G : Type} (f : F -> G) (d : F) (e : G) (h w : nat)
    (p : tensor F) (y x : nat) :
  has_shape [h; w] p = true -> y < h -> x < w ->
  tval e (tnth e (tnth e (tmap f p) y) x) = f (tval d (tnth d (tnth d p y) x)).
Proof.
  intros Hp Hy Hx.
  pose proof (has_shape_tnth d _ _ _ y Hp Hy) as Hrow.
  pose proof (has_shape_tnth d _ _ _ x Hrow Hx) as Hpx.
  rewrite (tnth_tmap_in f d e h [w] p y Hp Hy).
  rewrite (tnth_tmap_in f d e w [] _ x Hrow Hx).
  destruct (tnth d (tnth d p y) x); [reflexivity | discriminate].
Qed.

(** X4 -- called on a 3 x h x w tensor, without a batch axis,
    [annotate_image] denormalizes channel by channel: the value of channel
    [k] of the pixel in row [y], column [x] of the result is the text colour
    where the label covers the pixel, and elsewhere the clamped
    [value * std[c] + mean[c]] of the input's channel [c = 2 - k] (the result
    is in BGR order, height x width x channel layout). *)
Theorem annotate_image_channel_first {F : Type} `{Scalar F}
    (CLASS_NAMES : list string)
    (glyphs : string -> nat * nat -> nat -> nat -> bool)
    (h w : nat) (image : tensor F) (c : Z) :
  0 < h -> 0 < w -> has_shape [3; h; w] image = true ->
  (0 <= c < Z.of_nat (length CLASS_NAMES))%Z ->
  exists r,
    annotate_image CLASS_NAMES glyphs image c = Ok r
    /\ has_shape [h; w; 3] r = true
    /\ forall y x k, y < h -> x < w -> k < 3 ->
         get3 zero r y x k
         = if glyphs (nth (Z.to_nat c) CLASS_NAMES EmptyString) (5, 25) y x
           then nth k TEXT_COLOR zero
           else clamp1 zero one
                  (scale_value (2 - k) (get3 zero image (2 - k) y x)).
Proof.
  intros Hh Hw Himage Hc.
  pose proof Himage as Hsh.
  apply has_shape_cons in Himage. destruct Himage as (ts & -> & Hn & Hts).
  destruct ts as [| p0 [| p1 [| p2 [| ? ?]]]]; try discriminate.
  inversion Hts as [| ? ? Hp0 Hts1]; subst.
  inversion Hts1 as [| ? ? Hp1 Hts2]; subst.
  inversion Hts2 as [| ? ? Hp2 _]; subst.
  set (d := TN [tmap (clamp1 zero one) (tmap (scale_value 0) p0);
                tmap (clamp1 zero one) (tmap (scale_value 1) p1);
                tmap (clamp1 zero one) (tmap (scale_value 2) p2)]).
  assert (Hd : has_shape [3; h; w] d = true).
  { apply has_shape_cons. eexists. split; [reflexivity |].
    split; [reflexivity |].
    repeat constructor; now rewrite !has_shape_tmap. }
  rewrite (annotate_image_after CLASS_NAMES glyphs (TN [p0; p1; p2]) d d h w c
             Hh Hw eq_refl eq_refl Hd).
  rewrite (py_index_in_range CLASS_NAMES c EmptyString) by lia.
  replace (c <? 0)%Z with false by (symmetry; apply Z.ltb_ge; lia).
  cbn [rbind]. eexists. split; [reflexivity |]. split.
  - apply has_shape_putText. apply has_shape_build3.
  - intros y x k Hy Hx Hk.
    rewrite (get3_putText glyphs h w) by (assumption || apply has_shape_build3).
    destruct (glyphs _ (5, 25) y x); [reflexivity |].
    rewrite get3_build3 by assumption.
    unfold get3. subst d.
    destruct k as [| [| [| k]]]; [| | | lia]; cbn [Nat.sub tnth nth];
      rewrite (get2_tmap (clamp1 zero one) zero zero h w)
        by (assumption || now rewrite has_shape_tmap);
      now rewrite (get2_tmap (scale_value _) zero zero h w) by assumption.
Qed.

Lemma annotate_image_channel_first_witness :
  exists r,
    annotate_image (F := B32.t) Sample.names Sample.strokes
      (TN [Sample.plane 2 2 zero; Sample.plane 2 2 zero; Sample.plane 2 2 zero])
      1 = Ok r
    /\ has_shape [2; 2; 3] r = true
    /\ forall y x k, y < 2 -> x < 2 -> k < 3 ->
         get3 zero r y x k
         = if Sample.strokes (nth (Z.to_nat 1) Sample.names EmptyString) (5, 25) y x
           then nth k TEXT_COLOR zero
           else clamp1 zero one
                  (scale_value (2 - k)
                     (get3 zero
                        (TN [Sample.plane 2 2 zero; Sample.plane 2 2 zero;
                             Sample.plane 2 2 zero]) (2 - k) y x)).
Proof.
  apply (annotate_image_channel_first Sample.names Sample.strokes 2 2
           (TN [Sample.plane 2 2 zero; Sample.plane 2 2 zero;
                Sample.plane 2 2 zero]) 1);
    [lia | lia | reflexivity | simpl; lia].
Defined.

(** X5 -- called on a 1 x 3 x h x w tensor, [annotate_image] returns the
    picture in height x width x channel layout and BGR order, every channel
    rescaled with [std[0]] and [mean[0]]: channel [k] of the pixel in row [y],
    column [x] is the text colour under the label, and elsewhere the clamped
    [value * std[0] + mean[0]] of channel [2 - k] of the input. *)
Theorem annotate_image_batch_entries {F : Type} `{Scalar F}
    (CLASS_NAMES : list string)
    (glyphs : string -> nat * nat -> nat -> nat -> bool)
    (h w : nat) (image : tensor F) (c : Z) :
  0 < h -> 0 < w -> has_shape [1; 3; h; w] image = true ->
  (0 <= c < Z.of_nat (length CLASS_NAMES))%Z ->
  exists r,
    annotate_image CLASS_NAMES glyphs image c = Ok r
    /\ forall y x k, y < h -> x < w -> k < 3 ->
         get3 zero r y x k
         = if glyphs (nth (Z.to_nat c) CLASS_NAMES EmptyString) (5, 25) y x
           then nth k TEXT_COLOR zero
           else clamp1 zero one
                  (scale_value 0 (get3 zero (tnth zero image 0) (2 - k) y x)).
Proof.
  intros Hh Hw Himage Hc.
  apply has_shape_batch1 in Himage. destruct Himage as (img & -> & Himg).
  rewrite (annotate_image_batch1 CLASS_NAMES glyphs h w img c Hh Hw Himg).
  rewrite (py_index_in_range CLASS_NAMES c EmptyString) by lia.
  replace (c <? 0)%Z with false by (symmetry; apply Z.ltb_ge; lia).
  cbn [rbind]. eexists. split; [reflexivity |].
  intros y x k Hy Hx Hk.
  rewrite (get3_putText glyphs h w) by (assumption || apply has_shape_build3).
  destruct (glyphs _ (5, 25) y x); [reflexivity |].
  unfold bgr_pixels. rewrite get3_build3 by assumption.
  assert (Hk' : 2 - k < 3) by lia.
  assert (Hscaled : has_shape [3; h; w] (tmap scale0 img) = true)
    by now rewrite has_shape_tmap.
  rewrite (get3_tmap (clamp1 zero one) zero zero 3 h w _ (2 - k) y x
             Hscaled Hk' Hy Hx).
  rewrite (get3_tmap scale0 zero zero 3 h w img (2 - k) y x Himg Hk' Hy Hx).
  reflexivity.
Qed.

Lemma annotate_image_batch_entries_witness :
  exists r,
    annotate_image (F := B32.t) Sample.names Sample.strokes
      (Sample.batch1 2 2 zero) 1 = Ok r
    /\ forall y x k, y < 2 -> x < 2 -> k < 3 ->
         get3 zero r y x k
         = if Sample.strokes (nth (Z.to_nat 1) Sample.names EmptyString) (5, 25) y x
           then nth k TEXT_COLOR zero
           else clamp1 zero one
                  (scale_value 0
                     (get3 zero (tnth zero (Sample.batch1 2 2 zero) 0)
                           (2 - k) y x)).
Proof.
  apply (annotate_image_batch_entries Sample.names Sample.strokes 2 2
           (Sample.batch1 2 2 zero) 1);
    [lia | lia | reflexivity | simpl; lia].
Defined.

(** X6 -- [annotate_image] handles batches of one only: on a batch of two or
    more 3 x h x w images it raises [RuntimeError] (from [permute], which is
    handed four axes), whatever the class id. *)
Theorem annotate_image_larger_batch {F : Type} `{Scalar F}
    (CLASS_NAMES : list string)
    (glyphs : string -> nat * nat -> nat -> nat -> bool)
    (n h w : nat) (image : tensor F) (c : Z) :
  2 <= n -> 0 < h -> 0 < w -> has_shape [n; 3; h; w] image = true ->
  annotate_image CLASS_NAMES glyphs image c = Raise RuntimeError.
Proof.
  intros Hn Hh Hw Himage.
  destruct (denormalize_has_shape n [3; h; w] image Himage) as (r & Hr & Hshape).
  unfold annotate_image. rewrite Hr. cbn [rbind].
  pose proof Hshape as Hs.
  apply has_shape_cons in Hs. destruct Hs as (ts & -> & Hlen & _).
  destruct ts as [| t0 [| t1 ts]]; [simpl in Hlen; lia .. |].
  cbn [squeeze0]. unfold permute120.
  rewrite (has_shape_shape [n; 3; h; w] _ Hshape) by (repeat constructor; lia).
  reflexivity.
Qed.

Lemma annotate_image_larger_batch_witness :
  annotate_image (F := B32.t) Sample.names Sample.strokes
    (TN [TN [Sample.plane 1 1 zero; Sample.plane 1 1 zero; Sample.plane 1 1 zero];
         TN [Sample.plane 1 1 zero; Sample.plane 1 1 zero; Sample.plane 1 1 zero]])
    0 = Raise RuntimeError.
Proof.
  apply (annotate_image_larger_batch Sample.names Sample.strokes 2 1 1);
    [lia | lia | lia | reflexivity].
Defined.

(** X7 -- a class id [c] and the id [c - len] counted from the end of the
    class table give the same annotated picture, on any input. *)
Theorem annotate_image_from_end {F : Type} `{Scalar F}
    (CLASS_NAMES : list string)
    (glyphs : string -> nat * nat -> nat -> nat -> bool)
    (image : tensor F) (c : Z) :
  (0 <= c < Z.of_nat (length CLASS_NAMES))%Z ->
  annotate_image CLASS_NAMES glyphs image (c - Z.of_nat (length CLASS_NAMES))
  = annotate_image CLASS_NAMES glyphs image c.
Proof.
  intros Hc. unfold annotate_image.
  destruct (denormalize image MEAN STD) as [d |]; [| reflexivity]. cbn [rbind].
  destruct (permute120 zero (squeeze0 d)) as [p |]; [| reflexivity]. cbn [rbind].
  destruct (cvtColor_swap p) as [q |]; [| reflexivity]. cbn [rbind].
  now rewrite (py_index_from_end CLASS_NAMES c Hc).
Qed.

Lemma annotate_image_from_end_witness :
  annotate_image (F := B32.t) Sample.names Sample.strokes
    (Sample.batch1 2 2 zero) (2 - Z.of_nat (length Sample.names))
  = annotate_image Sample.names Sample.strokes (Sample.batch1 2 2 zero) 2.
Proof.
  apply (annotate_image_from_end Sample.names Sample.strokes
           (Sample.batch1 2 2 zero) 2).
  simpl. lia.
Defined.

(** ** Colour order and paths *)

Section SwapFacts.
Context {A : Type}.

Lemma swap_rb_twice (px : tensor A) :
  has_shape [3] px = true -> swap_rb (swap_rb px) = px.
Proof.
  intros Hpx. apply has_shape_cons in Hpx. destruct Hpx as (cs & -> & Hn & _).
  destruct cs as [| c0 [| c1 [| c2 [| ? ?]]]]; try discriminate. reflexivity.
Qed.

Lemma has_shape_swap_rb (px : tensor A) :
  has_shape [3] px = true -> has_shape [3] (swap_rb px) = true.
Proof.
  intros Hpx. pose proof Hpx as Hs.
  apply has_shape_cons in Hs. destruct Hs as (cs & -> & Hn & Hcs).
  destruct cs as [| c0 [| c1 [| c2 [| ? ?]]]]; try discriminate.
  cbn [swap_rb]. apply has_shape_cons. eexists. split; [reflexivity |].
  split; [reflexivity |].
  inversion Hcs as [| ? ? H0 Hcs1]; subst.
  inversion Hcs1 as [| ? ? H1 Hcs2]; subst.
  inversion Hcs2 as [| ? ? H2 _]; subst.
  repeat constructor; assumption.
Qed.

Lemma has_shape_map_pixels (f : tensor A -> tensor A) (h w c : nat)
    (img : tensor A) :
  (forall px, has_shape [c] px = true -> has_shape [c] (f px) = true) ->
  has_shape [h; w; c] img = true ->
  has_shape [h; w; c] (map_pixels f img) = true.
Proof.
  intros Hf Himg.
  apply has_shape_cons in Himg. destruct Himg as (rows & -> & Hh & Hrows).
  apply has_shape_cons. eexists. split; [reflexivity |]. split.
  - now rewrite length_map.
  - apply Forall_map. revert Hrows. apply Forall_impl. intros row Hrow.
    apply has_shape_cons in Hrow. destruct Hrow as (pxs & -> & Hw & Hpxs).
    apply has_shape_cons. eexists. split; [reflexivity |]. split.
    + now rewrite length_map.
    + apply Forall_map. revert Hpxs. apply Forall_impl. exact Hf.
Qed.

Lemma map_pixels_fixes (f : tensor A -> tensor A) (h w c : nat)
    (img : tensor A) :
  (forall px, has_shape [c] px = true -> f px = px) ->
  has_shape [h; w; c] img = true -> map_pixels f img = img.
Proof.
  intros Hf Himg.
  apply has_shape_cons in Himg. destruct Himg as (rows & -> & Hh & Hrows).
  cbn [map_pixels]. f_equal. rewrite <- (map_id rows) at 2.
  apply map_ext_Forall. revert Hrows. apply Forall_impl. intros row Hrow.
  apply has_shape_cons in Hrow. destruct Hrow as (pxs & -> & Hw & Hpxs).
  f_equal. rewrite <- (map_id pxs) at 2.
  apply map_ext_Forall. revert Hpxs. apply Forall_impl. exact Hf.
Qed.

Lemma map_pixels_compose (f g : tensor A -> tensor A) (img : tensor A) :
  map_pixels g (map_pixels f img) = map_pixels (fun px => g (f px)) img.
Proof.
  destruct img as [v | rows]; [reflexivity |]. cbn [map_pixels]. f_equal.
  rewrite map_map. apply map_ext. intros [v | pxs]; [reflexivity |].
  now rewrite map_map.
Qed.

End SwapFacts.

(** X8 -- the conversion that the driver applies to the picture it read
    ([COLOR_BGR2RGB]) and the one [annotate_image] applies before drawing
    ([COLOR_RGB2BGR]) undo each other on a three-channel picture. *)
Theorem cvtColor_swap_twice {A : Type} (h w : nat) (img : tensor A) :
  0 < h -> 0 < w -> has_shape [h; w; 3] img = true ->
  (rgb <- cvtColor_swap img ;; cvtColor_swap rgb) = Ok img.
Proof.
  intros Hh Hw Himg.
  assert (Hswap : forall x : tensor A,
             has_shape [h; w; 3] x = true ->
             cvtColor_swap x = Ok (map_pixels swap_rb x)).
  { intros x Hx. unfold cvtColor_swap.
    rewrite (has_shape_shape [h; w; 3] x Hx) by (repeat constructor; lia).
    replace (0 <? h) with true by (symmetry; now apply Nat.ltb_lt).
    replace (0 <? w) with true by (symmetry; now apply Nat.ltb_lt).
    reflexivity. }
  rewrite (Hswap img Himg). cbn [rbind].
  rewrite Hswap
    by (apply has_shape_map_pixels; [exact has_shape_swap_rb | exact Himg]).
  rewrite map_pixels_compose.
  now rewrite (map_pixels_fixes _ h w 3 img swap_rb_twice Himg).
Qed.

Lemma cvtColor_swap_twice_witness :
  (rgb <- cvtColor_swap Sample.picture ;; cvtColor_swap rgb) = Ok Sample.picture.
Proof.
  apply (cvtColor_swap_twice 2 2 Sample.picture); [lia | lia | reflexivity].
Defined.

Lemma last_component_no_sep (name : string) :
  no_sep name = true ->
  forall acc, last_component_from acc name = (acc ++ name)%string.
Proof.
  induction name as [| c name IH]; cbn [no_sep last_component_from]; intros Hn acc.
  - induction acc as [| a acc IHa]; [reflexivity | simpl; now rewrite <- IHa].
  - apply andb_prop in Hn. destruct Hn as [Hc Hname].
    apply negb_true_iff in Hc. rewrite Hc.
    rewrite (IH Hname). clear.
    induction acc as [| a acc IHa]; [reflexivity | simpl; now rewrite IHa].
Qed.

Lemma last_component_app (name : string) :
  no_sep name = true ->
  forall dir acc,
    last_component_from acc (dir ++ name)
    = (last_component_from acc dir ++ name)%string.
Proof.
  intros Hn. induction dir as [| c dir IH]; intros acc.
  - cbn [append last_component_from]. now apply last_component_no_sep.
  - cbn [append last_component_from]. destruct (Ascii.eqb c "/"); apply IH.
Qed.

Lemma last_component_ends_with_sep (dir : string) :
  ends_with "/" dir = true ->
  forall acc, last_component_from acc dir = EmptyString.
Proof.
  induction dir as [| c dir IH]; [discriminate |].
  intros Hend acc. cbn [last_component_from].
  destruct dir as [| c' dir'].
  - unfold ends_with in Hend. cbn in Hend.
    destruct (Ascii.eqb c "/") eqn:Ec; [reflexivity |].
    rewrite Ascii.eqb_sym in Ec.
    destruct c as [[] [] [] [] [] [] [] []]; try discriminate Ec; discriminate Hend.
  - assert (Hend' : ends_with "/" (String c' dir') = true).
    { unfold ends_with in *. cbn [String.length] in *.
      cbn [Nat.leb] in *.
      replace (S (S (String.length dir')) - 1) with (S (String.length dir'))
        in Hend by lia.
      replace (S (String.length dir') - 1) with (String.length dir') by lia.
      cbn [substring] in Hend. cbn [andb]. cbn [andb] in Hend. exact Hend. }
    destruct (Ascii.eqb c "/"); apply (IH Hend').
Qed.

Lemma last_component_after_sep (rest : string) :
  forall dir acc,
    last_component_from acc (dir ++ String "/" rest)
    = last_component_from "" rest.
Proof.
  induction dir as [| c dir IH]; intros acc; cbn [append last_component_from].
  - reflexivity.
  - destruct (Ascii.eqb c "/"); apply IH.
Qed.

(** X9 -- the file name under which the driver writes a result is the name
    of the directory entry it read: the last component of
    [os.path.join(dir, name)] is [name], for every directory path and every
    entry name (which has no separator in it). *)
Theorem last_component_path_join (dir name : string) :
  no_sep name = true -> last_component (path_join dir name) = name.
Proof.
  intros Hn. unfold last_component, path_join.
  destruct (String.eqb dir "") eqn:Edir.
  - apply String.eqb_eq in Edir. subst dir. cbn [orb append].
    now rewrite (last_component_no_sep name Hn).
  - cbn [orb]. destruct (ends_with "/" dir) eqn:Eend.
    + rewrite (last_component_app name Hn).
      now rewrite (last_component_ends_with_sep dir Eend).
    + change (dir ++ "/" ++ name)%string with (dir ++ String "/" name)%string.
      rewrite last_component_after_sep.
      now rewrite (last_component_no_sep name Hn).
Qed.

Lemma last_component_path_join_witness :
  last_component (path_join "pictures/today" "cat.jpg") = "cat.jpg"%string.
Proof. apply last_component_path_join. reflexivity. Defined.

(** ** [inference] and the table of class names *)

Section ArgmaxBound.
Context {F : Type} `{Scalar F}.

Lemma argmax_from_bound (l : list F) :
  forall (best : F) (besti i : nat),
    besti < i -> argmax_from best besti i l < i + length l.
Proof.
  induction l as [| x l IH]; intros best besti i Hi; cbn [argmax_from length].
  - lia.
  - destruct (leb x best).
    + specialize (IH best besti (S i)). lia.
    + destruct (is_nan_value x); [lia |].
      specialize (IH x i (S i)). lia.
Qed.

(** [np.argmax] of a non-empty row returns an index into the row. *)
Lemma argmax_list_bound (l : list F) :
  0 < length l -> exists k, argmax_list l = Ok k /\ k < length l.
Proof.
  destruct l as [| x l]; [simpl; lia |]. intros _.
  eexists. split; [reflexivity |].
  pose proof (argmax_from_bound l x 0 1 ltac:(lia)).
  destruct (is_nan_value x); simpl; lia.
Qed.

End ArgmaxBound.

Lemma inference_batch1_ok {F : Type} `{Scalar F} `{Exponential F}
    (W G : Type)
    (forward : device -> W -> bool -> G -> tensor F -> res (list (list F)))
    (CLASS_NAMES : list string)
    (glyphs : string -> nat * nat -> nat -> nat -> bool)
    (model : net W) (testloader : tensor F) (DEVICE : device) (g : G)
    (scores : list F) (h w : nat) :
  forward DEVICE (weights model) false g testloader = Ok [scores] ->
  length scores = length CLASS_NAMES -> 0 < length CLASS_NAMES ->
  0 < h -> 0 < w -> has_shape [1; 3; h; w] testloader = true ->
  exists r,
    inference forward CLASS_NAMES glyphs model testloader DEVICE g
    = ({| weights := weights model; training := false |}, Ok r)
    /\ has_shape [h; w; 3] r = true.
Proof.
  intros Hfw Hlen Hpos Hh Hw Hshape. unfold inference.
  rewrite (predict_batch1 W G forward model testloader DEVICE g scores Hfw).
  destruct (argmax_list_bound (softmax_row scores)) as (k & Hk & Hbound).
  { unfold softmax_row. rewrite !length_map. lia. }
  unfold softmax_row in Hbound. rewrite !length_map in Hbound.
  rewrite Hk. cbn [rbind].
  apply has_shape_batch1 in Hshape. destruct Hshape as (img & -> & Himg).
  rewrite (annotate_image_batch1 CLASS_NAMES glyphs h w img _ Hh Hw Himg).
  rewrite (py_index_in_range CLASS_NAMES (Z.of_nat k) EmptyString) by lia.
  cbn [rbind]. eexists. split; [reflexivity |].
  apply has_shape_putText. apply has_shape_build3.
Qed.

(** X10 -- when the network returns one row with as many scores as the class
    table has names (and there is at least one), [inference] on a
    1 x 3 x h x w tensor never fails on the lookup of the class name: it
    returns an h x w x 3 picture and leaves the module in evaluation mode. *)
Theorem inference_class_in_range {F : Type} `{Scalar F} `{Exponential F}
    (W G : Type)
    (forward : device -> W -> bool -> G -> tensor F -> res (list (list F)))
    (CLASS_NAMES : list string)
    (glyphs : string -> nat * nat -> nat -> nat -> bool)
    (model : net W) (testloader : tensor F) (DEVICE : device) (g : G)
    (scores : list F) (h w : nat) :
  forward DEVICE (weights model) false g testloader = Ok [scores] ->
  length scores = length CLASS_NAMES -> 0 < length CLASS_NAMES ->
  0 < h -> 0 < w -> has_shape [1; 3; h; w] testloader = true ->
  exists r,
    inference forward CLASS_NAMES glyphs model testloader DEVICE g
    = ({| weights := weights model; training := false |}, Ok r)
    /\ has_shape [h; w; 3] r = true.
Proof.
  exact (inference_batch1_ok W G forward CLASS_NAMES glyphs model testloader
           DEVICE g scores h w).
Qed.

Lemma inference_class_in_range_witness :
  exists r,
    inference Sample.toy_forward Sample.names Sample.strokes Sample2.model
      (Sample.batch1 2 2 0%R) Cpu 5%R
    = ({| weights := weights Sample2.model; training := false |}, Ok r)
    /\ has_shape [2; 2; 3] r = true.
Proof.
  apply (inference_class_in_range (list R) R Sample.toy_forward Sample.names
           Sample.strokes Sample2.model (Sample.batch1 2 2 0%R) Cpu 5%R
           [0%R; 1%R; 0%R] 2 2);
    [reflexivity | reflexivity | simpl; lia | lia | lia | reflexivity].
Defined.

Local Open Scope R_scope.

Lemma sum_map_div (s : R) (es : list R) :
  fold_right Rplus 0 (map (fun e => e / s) es) = fold_right Rplus 0 es / s.
Proof.
  induction es as [| e es IH]; simpl; [lra |]. rewrite IH. lra.
Qed.

(** X11 -- over the reals, the softmax of a non-empty row of scores is a
    probability distribution: its entries are positive and add up to 1. *)
Theorem softmax_row_distribution (x : R) (xs : list R) :
  Forall (fun p => 0 < p) (softmax_row (x :: xs))
  /\ fold_right Rplus 0 (softmax_row (x :: xs)) = 1.
Proof.
  pose proof (softmax_sum_pos (x :: xs) ltac:(simpl; lia)) as Hs.
  unfold softmax_row, softmax_value.
  set (m := row_max (x :: xs)) in *.
  set (s := fold_right add zero (map (fun y => expF (sub y m)) (x :: xs))) in *.
  split.
  - apply Forall_map. apply Forall_forall. intros v _.
    apply Rdiv_lt_0_compat; [apply exp_pos | exact Hs].
  - change (map (fun x0 : R => div (expF (sub x0 m)) s) (x :: xs))
      with (map (fun x0 : R => exp (x0 - m) / s) (x :: xs)).
    rewrite <- (map_map (fun x0 => exp (x0 - m)) (fun e => e / s)).
    rewrite sum_map_div.
    change (fold_right Rplus 0 (map (fun x0 => exp (x0 - m)) (x :: xs)))
      with (fold_right Rplus 0 (map (fun y => expF (sub y m)) (x :: xs))).
    replace (fold_right Rplus 0 (map (fun y => expF (sub y m)) (x :: xs)))
      with s by (unfold s; now rewrite zero_R).
    field. lra.
Qed.

Local Close Scope R_scope.

(** ** The driver, picture by picture *)

Lemma written_paths_app {F : Type} (tr1 tr2 : list (event F)) :
  written_paths (tr1 ++ tr2) = written_paths tr1 ++ written_paths tr2.
Proof. unfold written_paths. apply flat_map_app. Qed.

Section LoopFacts.
Context {F : Type} `{Scalar F} `{Exponential F}.
Variables W G : Type.
Variable forward : device -> W -> bool -> G -> tensor F -> res (list (list F)).
Variable CLASS_NAMES : list string.
Variable glyphs : string -> nat * nat -> nat -> nat -> bool.
Variable resize : nat -> nat -> image8 -> image8.
Variable imread : string -> option image8.

(** One turn of the loop appends to the trace; it hands one path to
    [imwrite] when it succeeds and none when it fails. *)
Lemma loop_body_written (DEVICE : device) (g : G) (model : net W) (i : nat)
    (image_path : string) (tr : list (event F)) :
  exists evs,
    fst (loop_body forward CLASS_NAMES glyphs resize imread DEVICE g model i
                   image_path tr) = tr ++ evs
    /\ written_paths evs
       = match snd (loop_body forward CLASS_NAMES glyphs resize imread DEVICE
                              g model i image_path tr) with
         | Ok _ => [out_path image_path]
         | Raise _ => []
         end.
Proof.
  unfold loop_body, io_bind, emit, lift, io_ret.
  destruct (imread image_path) as [image |];
    [| exists [Print (i + 1)]; split; reflexivity].
  destruct (cvtColor_swap image) as [rgb |];
    [| exists [Print (i + 1)]; split; reflexivity].
  destruct (get_test_transform resize IMAGE_RESIZE rgb) as [t |];
    [| exists [Print (i + 1)]; split; reflexivity].
  destruct (inference forward CLASS_NAMES glyphs model (unsqueeze0 t) DEVICE g)
    as [model' [result | e]].
  - exists [Print (i + 1); Inference image_path; Imshow result;
            Imwrite (out_path image_path)
                    (tmap (fun v => mul v (lit 255 1)) result)].
    split; [| reflexivity]. cbn [fst]. now rewrite <- !app_assoc.
  - exists [Print (i + 1); Inference image_path].
    split; [| reflexivity]. cbn [fst]. now rewrite <- !app_assoc.
Qed.

Lemma loop_written (DEVICE : device) (gs : nat -> G) (paths : list string) :
  forall (model : net W) (i : nat) (tr : list (event F)),
  exists (k : nat) (evs : list (event F)),
    fst (loop forward CLASS_NAMES glyphs resize imread DEVICE gs model i
              paths tr) = tr ++ evs
    /\ written_paths evs = map out_path (firstn k paths)
    /\ k <= length paths
    /\ (snd (loop forward CLASS_NAMES glyphs resize imread DEVICE gs model i
                  paths tr) = Ok tt <-> k = length paths).
Proof.
  induction paths as [| image_path rest IH]; intros model i tr.
  - exists 0, []. cbn. rewrite app_nil_r. repeat split; auto.
  - cbn [loop]. unfold io_bind.
    destruct (loop_body_written DEVICE (gs i) model i image_path tr)
      as (evs1 & Hfst & Hwritten).
    destruct (loop_body forward CLASS_NAMES glyphs resize imread DEVICE (gs i)
                        model i image_path tr) as [tr1 [model1 | e]];
      cbn [fst snd] in Hfst, Hwritten.
    + destruct (IH model1 (S i) tr1) as (k & evs & Hf & Hw & Hk & Hok).
      exists (S k), (evs1 ++ evs). subst tr1. split; [| split; [| split]].
      * rewrite Hf. now rewrite app_assoc.
      * rewrite written_paths_app, Hwritten, Hw. reflexivity.
      * cbn [length]. lia.
      * rewrite Hok. cbn [length]. lia.
    + exists 0, evs1. cbn [fst snd firstn map length].
      split; [exact Hfst |]. split; [exact Hwritten |]. split; [lia |].
      split; [discriminate | lia].
Qed.

End LoopFacts.

(** X12 -- whatever happens in a run, the paths written by [imwrite] are the
    output paths (output directory and the picture's own file name) of the
    first [k] pictures that [glob] listed, in the order listed; [k] is the
    number of all pictures when the run ends without an error. *)
Theorem run_writes_prefix {F : Type} `{Scalar F} `{Exponential F}
    (W G : Type)
    (forward : device -> W -> bool -> G -> tensor F -> res (list (list F)))
    (CLASS_NAMES : list string)
    (glyphs : string -> nat * nat -> nat -> nat -> bool)
    (resize : nat -> nat -> image8 -> image8)
    (checkpoint : Type)
    (torch_load : string -> res checkpoint)
    (model_state_dict : checkpoint -> res W)
    (build_model : bool -> nat -> net W)
    (load_state_dict : net W -> W -> res (net W))
    (listdir : string -> list string)
    (imread : string -> option image8)
    (a : args) (DEVICE : device) (gs : nat -> G) :
  exists k : nat,
    written_paths
      (fst (run forward CLASS_NAMES glyphs resize torch_load model_state_dict
                build_model load_state_dict listdir imread a DEVICE gs))
    = map out_path (firstn k (glob_jpg listdir (input a)))
    /\ k <= length (glob_jpg listdir (input a))
    /\ (snd (run forward CLASS_NAMES glyphs resize torch_load model_state_dict
                 build_model load_state_dict listdir imread a DEVICE gs)
        = Ok tt ->
        k = length (glob_jpg listdir (input a))).
Proof.
  unfold run, main, io_bind, emit, lift. cbn [app].
  destruct (torch_load (weights_path a)) as [ck |];
    [| exists 0; repeat split; [lia | discriminate]].
  destruct (model_state_dict ck) as [w |];
    [| exists 0; repeat split; [lia | discriminate]].
  destruct (load_state_dict _ w) as [m |];
    [| exists 0; repeat split; [lia | discriminate]].
  destruct (loop_written W G forward CLASS_NAMES glyphs resize imread DEVICE gs
              (glob_jpg listdir (input a)) m 0 [Makedirs INFER_RESULT_PATH])
    as (k & evs & Hf & Hw & Hk & Hok).
  exists k. rewrite Hf. split; [| split].
  - rewrite written_paths_app. exact Hw.
  - exact Hk.
  - apply Hok.
Qed.

(** X13 -- a picture that cannot be decoded ends the run: when the first
    picture listed is unreadable (and the checkpoint loads), the run prints
    its number, raises OpenCV's error, and neither calls [inference] nor
    writes anything, however many pictures follow. *)
Theorem run_unreadable_picture {F : Type} `{Scalar F} `{Exponential F}
    (W G : Type)
    (forward : device -> W -> bool -> G -> tensor F -> res (list (list F)))
    (CLASS_NAMES : list string)
    (glyphs : string -> nat * nat -> nat -> nat -> bool)
    (resize : nat -> nat -> image8 -> image8)
    (checkpoint : Type)
    (torch_load : string -> res checkpoint)
    (model_state_dict : checkpoint -> res W)
    (build_model : bool -> nat -> net W)
    (load_state_dict : net W -> W -> res (net W))
    (listdir : string -> list string)
    (imread : string -> option image8)
    (a : args) (DEVICE : device) (gs : nat -> G)
    (ck : checkpoint) (w : W) (m : net W)
    (image_path : string) (rest : list string) :
  torch_load (weights_path a) = Ok ck ->
  model_state_dict ck = Ok w ->
  load_state_dict (build_model false (length CLASS_NAMES)) w = Ok m ->
  glob_jpg listdir (input a) = image_path :: rest ->
  imread image_path = None ->
  run forward CLASS_NAMES glyphs resize torch_load model_state_dict
      build_model load_state_dict listdir imread a DEVICE gs
  = ([Makedirs INFER_RESULT_PATH; Print 1], Raise CvError).
Proof.
  intros Hload Hdict Hstate Hglob Hread.
  unfold run, main, io_bind, emit, lift.
  rewrite Hload, Hdict, Hstate, Hglob. cbn [app loop].
  unfold io_bind, loop_body, io_bind, emit, lift. now rewrite Hread.
Qed.

Lemma run_unreadable_picture_witness :
  run (F := R) Sample.toy_forward Sample.names Sample.strokes Sample.nearest
      Sample.toy_load Sample.toy_state_dict Sample.toy_build
      Sample.toy_load_state_dict Sample2.listdir Sample2.imread_none
      Sample.toy_args Cpu (fun _ => 0%R)
  = ([Makedirs INFER_RESULT_PATH; Print 1], Raise CvError).
Proof.
  apply (run_unreadable_picture (list R) R Sample.toy_forward Sample.names
           Sample.strokes Sample.nearest (list R)
           Sample.toy_load Sample.toy_state_dict Sample.toy_build
           Sample.toy_load_state_dict Sample2.listdir Sample2.imread_none
           Sample.toy_args Cpu (fun _ => 0%R)
           [1%R; 2%R] [1%R; 2%R] {| weights := [1%R; 2%R]; training := true |}
           "pictures/cat.jpg" []);
    reflexivity.
Defined.

(** X14 -- one turn of the loop on a picture that decodes, with a network
    that returns one row with as many scores as there are class names: the
    turn prints the picture's number, calls [inference], shows a
    224 x 224 x 3 picture and writes that picture, multiplied by 255, under
    the picture's own file name in the output directory; it leaves the
    module in evaluation mode. *)
Theorem loop_body_success {F : Type} `{Scalar F} `{Exponential F}
    (W G : Type)
    (forward : device -> W -> bool -> G -> tensor F -> res (list (list F)))
    (CLASS_NAMES : list string)
    (glyphs : string -> nat * nat -> nat -> nat -> bool)
    (resize : nat -> nat -> image8 -> image8)
    (imread : string -> option image8)
    (DEVICE : device) (g : G) (model : net W) (i : nat)
    (image_path : string) (tr : list (event F))
    (img : image8) (h w : nat) :
  resize_contract resize ->
  existsb (fun v : F => leb v zero && leb zero v) STD = false ->
  imread image_path = Some img ->
  0 < h -> 0 < w -> has_shape [h; w; 3] img = true ->
  0 < length CLASS_NAMES ->
  (forall x, exists scores,
      forward DEVICE (weights model) false g x = Ok [scores]
      /\ length scores = length CLASS_NAMES) ->
  exists r,
    loop_body forward CLASS_NAMES glyphs resize imread DEVICE g model i
              image_path tr
    = (tr ++ [Print (i + 1); Inference image_path; Imshow r;
              Imwrite (out_path image_path)
                      (tmap (fun v => mul v (lit 255 1)) r)],
       Ok {| weights := weights model; training := false |})
    /\ has_shape [224; 224; 3] r = true.
Proof.
  intros Hresize Hstd Hread Hh Hw Himg Hnames Hforward.
  assert (Hrgb : cvtColor_swap img = Ok (map_pixels swap_rb img)).
  { unfold cvtColor_swap.
    rewrite (has_shape_shape [h; w; 3] img Himg) by (repeat constructor; lia).
    replace (0 <? h) with true by (symmetry; now apply Nat.ltb_lt).
    replace (0 <? w) with true by (symmetry; now apply Nat.ltb_lt).
    reflexivity. }
  assert (Hrgb_shape : has_shape [h; w; 3] (map_pixels swap_rb img) = true)
    by (apply has_shape_map_pixels; [exact has_shape_swap_rb | exact Himg]).
  pose proof (get_test_transform_entries resize IMAGE_RESIZE h w
                (map_pixels swap_rb img) Hresize Hstd
                ltac:(unfold IMAGE_RESIZE; lia) Hh Hw Hrgb_shape) as Ht.
  set (t := build3 3 224 224 _) in Ht.
  assert (Ht_shape : has_shape [1; 3; 224; 224] (unsqueeze0 t) = true).
  { unfold unsqueeze0. apply has_shape_cons. eexists. split; [reflexivity |].
    split; [reflexivity |]. constructor; [| constructor].
    apply has_shape_build3. }
  destruct (Hforward (unsqueeze0 t)) as (scores & Hfw & Hlen).
  destruct (inference_batch1_ok W G forward CLASS_NAMES glyphs model
              (unsqueeze0 t) DEVICE g scores 224 224 Hfw Hlen Hnames
              ltac:(lia) ltac:(lia) Ht_shape) as (r & Hr & Hr_shape).
  exists r. split; [| exact Hr_shape].
  unfold loop_body, io_bind, emit, lift, io_ret.
  rewrite Hread, Hrgb, Ht. fold t. rewrite Hr.
  unfold out_path. now rewrite <- !app_assoc.
Qed.

Lemma loop_body_success_witness :
  exists r,
    loop_body (F := R) Sample.toy_forward Sample.names Sample.strokes
      Sample.nearest Sample2.imread Cpu 0%R Sample2.model 0
      "pictures/cat.jpg" [Makedirs INFER_RESULT_PATH]
    = ([Makedirs INFER_RESULT_PATH] ++
       [Print (0 + 1); Inference "pictures/cat.jpg"; Imshow r;
        Imwrite (out_path "pictures/cat.jpg")
                (tmap (fun v => mul v (lit 255 1)) r)],
       Ok {| weights := weights Sample2.model; training := false |})
    /\ has_shape [224; 224; 3] r = true.
Proof.
  apply (loop_body_success (list R) R Sample.toy_forward Sample.names
           Sample.strokes Sample.nearest Sample2.imread Cpu 0%R Sample2.model 0
           "pictures/cat.jpg" [Makedirs INFER_RESULT_PATH] Sample.picture 2 2).
  - exact nearest_contract.
  - exact std_R_nonzero.
  - reflexivity.
  - lia.
  - lia.
  - reflexivity.
  - simpl. lia.
  - intros x. exists [0%R; 1%R; 0%R]. split; reflexivity.
Defined.

(** ** The round trip without a batch axis *)

(** X15 -- on a tensor without a batch axis the loop of [denormalize] walks
    the channels, and [denormalize] undoes [Normalize]: over the reals, for
    every 3 x h x w tensor [x], denormalizing the normalized tensor gives
    [clamp(x, 0, 1)], which is [x] itself when the values of [x] lie in
    [0, 1]. *)
Theorem denormalize_normalize_channel_first (h w : nat) (x : tensor R) :
  0 < h -> 0 < w -> has_shape [3; h; w] x = true ->
  (y <- normalize MEAN STD x ;; denormalize y MEAN STD) = Ok (clamp zero one x)
  /\ (tall in_unit x = true -> clamp zero one x = x).
Proof. exact (denormalize_normalize_chw h w x). Qed.

Lemma denormalize_normalize_channel_first_witness :
  let x : tensor R := TN [Sample.plane 1 2 (1 / 2)%R; Sample.plane 1 2 0%R;
                          Sample.plane 1 2 1%R] in
  (y <- normalize MEAN STD x ;; denormalize y MEAN STD) = Ok (clamp zero one x)
  /\ (tall in_unit x = true -> clamp zero one x = x).
Proof.
  cbv zeta.
  apply (denormalize_normalize_channel_first 1 2); [lia | lia | reflexivity].
Defined.

(** X16 -- in binary32, a byte of a picture taken through [ToTensor] and
    [Normalize] and back through the loop of [denormalize], all with the
    constants of its channel, comes back within 2^-24 of the value
    byte / 255 it started from. *)
Theorem roundtrip_byte_tolerance (c : nat) (b : byte) :
  c < 3 ->
  leb (SFabs (sub (roundtrip_value (F := B32.t) c (byte_value b))
                  (byte_value b)))
      (S754_finite false 8388608 (-47))
  = true.
Proof. exact (roundtrip_byte_b32 c b). Qed.

Lemma roundtrip_byte_tolerance_witness :
  leb (SFabs (sub (roundtrip_value (F := B32.t) 1 (byte_value x80))
                  (byte_value x80)))
      (S754_finite false 8388608 (-47))
  = true.
Proof. apply (roundtrip_byte_tolerance 1 x80). lia. Defined.
